(** * Admission control: the rate limiters of [rate-limiting/rate-limiters]
      and the delaying throttle of [API-Throttling/middleware.js]

    Every middleware of the repository reads [Date.now()], looks the
    client's address up in a module-level [Map], mutates the entry and
    either calls [next()], answers with status 429, or (the throttle)
    arms a timer.  Here a middleware is a function from the store, the
    client address and the clock reading to the new store and the
    response; a server run is the fold of that function over the
    requests in arrival order. *)

From Stdlib Require Import ZArith QArith Qround Lia SpecFloat.
From stdpp Require Import base gmap strings list sorting.

Local Open Scope Z_scope.

(** ** JavaScript numbers

    Clock readings and counters are integers, kept in [Z].  Where the
    source divides them as numbers and at once takes [Math.floor] or
    [Math.ceil], the quotient is taken in [Q], so [/] is the quotient
    and not an integer division. *)

Definition num (z : Z) : Q := inject_Z z.
Definition Math_floor (q : Q) : Z := Qfloor q.
Definition Math_ceil (q : Q) : Z := Qceiling q.
Definition Math_max (a b : Z) : Z := Z.max a b.
Definition Math_min (a b : Z) : Z := Z.min a b.

(** Where the source keeps a fraction and computes with it (the weight
    of the sliding window counter and its weighted sum), every operation
    rounds to an IEEE 754 double: binary64, 53 bits of precision, round
    to nearest even.  [double_of] is the integer as a number. *)
Definition double : Type := spec_float.
Definition double_of (z : Z) : double := binary_normalize 53 1024 z 0 false.
Definition double_add (x y : double) : double := SFadd 53 1024 x y.
Definition double_sub (x y : double) : double := SFsub 53 1024 x y.
Definition double_mul (x y : double) : double := SFmul 53 1024 x y.
Definition double_div (x y : double) : double := SFdiv 53 1024 x y.
(** [x > y] and [x < y]; false when an operand is [NaN]. *)
Definition double_gt (x y : double) : bool := SFltb y x.

(** ** Responses and server runs *)

(** What a middleware does with a request: hand it on ([next()]), answer
    [res.status(429).json({error, retryAfter})], or arm
    [setTimeout(.., delay)] and hand it on when the timer fires. *)
Inductive Response : Type :=
  | Next
  | Status429 (retryAfter : Z)
  | Timer (delay : Z).

Global Instance Response_eq_dec : EqDecision Response.
Proof. solve_decision. Defined.

Definition admitted (r : Response) : bool :=
  match r with Next => true | _ => false end.

Definition rejected (r : Response) : bool :=
  match r with Status429 _ => true | _ => false end.

(** A request as the middleware sees it: [req.ip] and [Date.now()]. *)
Definition Request : Type := string * Z.

Section Run.
Context {St : Type}.
Variable limiter : gmap string St → string → Z → gmap string St * Response.

(** The server applies the middleware to the requests in arrival order;
    the store starts as [new Map()]. *)
Fixpoint run (store : gmap string St) (reqs : list Request)
  : gmap string St * list Response :=
  match reqs with
  | [] => (store, [])
  | (ip, now) :: rest =>
      let '(store1, r) := limiter store ip now in
      let '(store2, rs) := run store1 rest in
      (store2, r :: rs)
  end.

(** The clock readings of one client's requests, and the responses they
    got. *)
Definition times_of (ip : string) (reqs : list Request) : list Z :=
  (filter (λ r : Request, r.1 = ip) reqs).*2.

Definition responses_of (ip : string) (reqs : list Request)
    (rs : list Response) : list Response :=
  (filter (λ p : Request * Response, p.1.1 = ip) (zip reqs rs)).*2.

Definition from (ip : string) (ts : list Z) : list Request :=
  (λ t, (ip, t)) <$> ts.

End Run.

(** How many requests of [ip] with a clock reading in [[lo, hi]] were
    handed on. *)
Definition admitted_between (ip : string) (lo hi : Z)
    (reqs : list Request) (rs : list Response) : nat :=
  length (filter (λ p : Request * Response,
                    p.1.1 = ip ∧ admitted p.2 ∧ lo ≤ p.1.2 ≤ hi)
                 (zip reqs rs)).

(** How many requests out of a burst of [n] from [ip], all at clock
    reading [now], the limiter hands on when it starts in [store]. *)
Definition burst_admitted {St : Type}
    (limiter : gmap string St → string → Z → gmap string St * Response)
    (store : gmap string St) (ip : string) (now : Z) (n : nat) : nat :=
  length (filter (λ r, admitted r) (run limiter store (from ip (replicate n now))).2).

(** The clock never runs backwards between two requests. *)
Definition clock_ok (reqs : list Request) : Prop :=
  StronglySorted Z.le reqs.*2.

(** ** Fixed window counter ([rate-limiters/fixed-window]) *)

Module FixedWindow.

(** The object stored per address: [{ count, windowStart }]. *)
Record Entry : Type := { count : Z; windowStart : Z }.

Section Limiter.
(** [windowTime] and [maxRequests] are module constants of the source;
    they are kept abstract here and given their values below. *)
Variables (windowTime maxRequests : Z).

Definition fixedWindowRateLimiter
    (ipRequestCounts : gmap string Entry) (ip : string) (now : Z)
  : gmap string Entry * Response :=
  match ipRequestCounts !! ip with
  | None =>
      (<[ip := {| count := 1; windowStart := now |}]> ipRequestCounts, Next)
  | Some entry =>
      if bool_decide (now - windowStart entry < windowTime) then
        if bool_decide (count entry < maxRequests) then
          (<[ip := {| count := count entry + 1;
                      windowStart := windowStart entry |}]> ipRequestCounts,
           Next)
        else
          let retryAfter :=
            Math_ceil (num (windowTime - (now - windowStart entry)) / 1000) in
          (ipRequestCounts, Status429 retryAfter)
      else
        (<[ip := {| count := 1; windowStart := now |}]> ipRequestCounts, Next)
  end.

(** The request at [now] opens a window for [ip]: the address is new, or
    its stored window has run out. *)
Definition opens_window (store : gmap string Entry) (ip : string) (now : Z) : Prop :=
  match store !! ip with
  | None => True
  | Some entry => ¬ (now - windowStart entry < windowTime)
  end.

(** An entry as its owner's request at clock reading [T] leaves it: the
    count is between one and the limit and [T] lies in the stored
    window. *)
Definition settled (T : Z) (entry : Entry) : Prop :=
  1 ≤ count entry ≤ maxRequests ∧
  windowStart entry ≤ T ∧
  T - windowStart entry < windowTime.

End Limiter.

Definition windowTime : Z := 15 * 60 * 1000.
Definition maxRequests : Z := 100.

End FixedWindow.

(** ** Sliding window log ([rate-limiters/sliding-window]) *)

Module SlidingWindowLog.

Section Limiter.
Variables (windowMs maxRequests : Z).

(** [timeStamps.filter(ts => now - ts <= windowMs)] *)
Definition prune (now : Z) (timeStamps : list Z) : list Z :=
  filter (λ ts, now - ts ≤ windowMs) timeStamps.

(** The stored value is the array of clock readings.  [updatedTimeStamps[0]]
    is read after [push(now)], so the array has a first element. *)
Definition slidingWindowRateLimiter
    (requestLogs : gmap string (list Z)) (ip : string) (now : Z)
  : gmap string (list Z) * Response :=
  match requestLogs !! ip with
  | None => (<[ip := [now]]> requestLogs, Next)
  | Some timeStamps =>
      let updatedTimeStamps := prune now timeStamps ++ [now] in
      let requestLogs1 := <[ip := updatedTimeStamps]> requestLogs in
      if bool_decide (maxRequests < Z.of_nat (length updatedTimeStamps)) then
        let retryAfter :=
          Math_ceil
            (num (windowMs - (now - default now (head updatedTimeStamps))) / 1000) in
        (requestLogs1, Status429 retryAfter)
      else (requestLogs1, Next)
  end.

End Limiter.

Definition windowMs : Z := 15 * 50 * 1000.
Definition maxRequests : Z := 100.

End SlidingWindowLog.

(** ** Sliding window counter ([rate-limiters/sliding-window-counter.js]) *)

Module SlidingWindowCounter.

(** [{ timestamp, count }] and [{ current, previous }]. *)
Record Window : Type := { timestamp : Z; count : Z }.
Record Entry : Type := { current : Window; previous : Window }.

Section Limiter.
Variables (windowSize maxRequests : Z).

Definition windowStart (now : Z) : Z :=
  Math_floor (num now / num windowSize) * windowSize.

Definition timeIntoWindow (now : Z) : Z := now - windowStart now.

(** [timeIntoWindow / windowSize], a fraction kept as a number. *)
Definition weight (now : Z) : double :=
  double_div (double_of (timeIntoWindow now)) (double_of windowSize).

(** The entry as the call leaves it: shifted when the stored current
    window is not the one of [now], counted up otherwise. *)
Definition shift (entry : Entry) (now : Z) : Entry :=
  if bool_decide (timestamp (current entry) ≠ windowStart now) then
    {| previous := current entry;
       current := {| timestamp := windowStart now; count := 1 |} |}
  else
    {| current := {| timestamp := timestamp (current entry);
                     count := count (current entry) + 1 |};
       previous := previous entry |}.

(** [entry.current.count * (1 - weight) + entry.previous.count * weight],
    each operation rounded as the source rounds it. *)
Definition totalCount (entry : Entry) (now : Z) : double :=
  double_add
    (double_mul (double_of (count (current entry)))
                (double_sub (double_of 1) (weight now)))
    (double_mul (double_of (count (previous entry))) (weight now)).

Definition slidingWindowCounterRateLimiter
    (buckets : gmap string Entry) (ip : string) (now : Z)
  : gmap string Entry * Response :=
  match buckets !! ip with
  | None =>
      (<[ip := {| current := {| timestamp := windowStart now; count := 1 |};
                  previous := {| timestamp := windowStart now - windowSize;
                                 count := 0 |} |}]> buckets,
       Next)
  | Some entry =>
      let entry1 := shift entry now in
      let buckets1 := <[ip := entry1]> buckets in
      if double_gt (totalCount entry1 now) (double_of maxRequests) then
        let retryAfter := Math_ceil (num windowSize / 1000) in
        (buckets1, Status429 retryAfter)
      else (buckets1, Next)
  end.

(** How many of the clock readings [ts] fall in the window that starts
    at [start]. *)
Definition window_count (start : Z) (ts : list Z) : Z :=
  Z.of_nat (length (filter (λ t, windowStart t = start) ts)).

(** The entry that the requests at [ts], and then one at [T], add up to:
    the window of [T] with the requests in it, and before it the last
    window in which one of [ts] fell. *)
Definition entry_of_history (ts : list Z) (T : Z) : Entry :=
  {| current := {| timestamp := windowStart T;
                   count := window_count (windowStart T) (ts ++ [T]) |};
     previous :=
       match last (filter (λ t, windowStart t ≠ windowStart T) ts) with
       | Some t' => {| timestamp := windowStart t';
                       count := window_count (windowStart t') ts |}
       | None => {| timestamp := windowStart T - windowSize; count := 0 |}
       end |}.

End Limiter.

Definition windowSize : Z := 60 * 1000.
Definition maxRequests : Z := 20.

End SlidingWindowCounter.

(** ** Token bucket ([rate-limiters/token-bucket.js]) *)

Module TokenBucket.

Record Bucket : Type := { tokens : Z; lastRefill : Z }.

Section Limiter.
Variables (bucketCapacity refillRate : Z).

Definition timeElapsed (bucket : Bucket) (now : Z) : Q :=
  num (now - lastRefill bucket) / 1000.

Definition tokensToAdd (bucket : Bucket) (now : Z) : Z :=
  Math_floor (timeElapsed bucket now * num refillRate).

(** The two assignments that refill the bucket before the test. *)
Definition refill (bucket : Bucket) (now : Z) : Bucket :=
  {| tokens := Math_min bucketCapacity (tokens bucket + tokensToAdd bucket now);
     lastRefill := if bool_decide (0 < tokensToAdd bucket now) then now
                   else lastRefill bucket |}.

Definition tokenBucketRateLimiter
    (tokenBuckets : gmap string Bucket) (ip : string) (now : Z)
  : gmap string Bucket * Response :=
  match tokenBuckets !! ip with
  | None =>
      (<[ip := {| tokens := bucketCapacity - 1; lastRefill := now |}]> tokenBuckets,
       Next)
  | Some bucket =>
      let bucket1 := refill bucket now in
      if bool_decide (0 < tokens bucket1) then
        (<[ip := {| tokens := tokens bucket1 - 1;
                    lastRefill := lastRefill bucket1 |}]> tokenBuckets,
         Next)
      else (<[ip := bucket1]> tokenBuckets, Status429 1)
  end.

(** A bucket as its owner's request at clock reading [T] leaves it: the
    count is in range and less than one token's worth of time has gone by
    since [lastRefill]. *)
Definition settled (T : Z) (bucket : Bucket) : Prop :=
  0 ≤ tokens bucket ≤ bucketCapacity ∧
  lastRefill bucket ≤ T ∧
  (T - lastRefill bucket) * refillRate < 1000.

End Limiter.

Definition bucketCapacity : Z := 10.
Definition refillRate : Z := 1.

End TokenBucket.

(** ** Leaky bucket ([rate-limiters/leaky-token-bucket.js]) *)

Module LeakyBucket.

Record Bucket : Type := { lastLeakTime : Z; queue : Z }.

Section Limiter.
Variables (queueCapacity leakRate : Z).

Definition leaked (bucket : Bucket) (now : Z) : Z :=
  Math_floor (num (now - lastLeakTime bucket) / num leakRate).

(** The two assignments that drain the queue before the test. *)
Definition leak (bucket : Bucket) (now : Z) : Bucket :=
  {| queue := Math_max 0 (queue bucket - leaked bucket now);
     lastLeakTime := if bool_decide (0 < leaked bucket now) then now
                     else lastLeakTime bucket |}.

Definition leakyBucketRateLimiter
    (buckets : gmap string Bucket) (ip : string) (now : Z)
  : gmap string Bucket * Response :=
  match buckets !! ip with
  | None => (<[ip := {| lastLeakTime := now; queue := 1 |}]> buckets, Next)
  | Some bucket =>
      let bucket1 := leak bucket now in
      if bool_decide (queue bucket1 < queueCapacity) then
        (<[ip := {| lastLeakTime := lastLeakTime bucket1;
                    queue := queue bucket1 + 1 |}]> buckets,
         Next)
      else
        (<[ip := bucket1]> buckets, Status429 (Math_ceil (num leakRate / 1000)))
  end.

(** A bucket as its owner's request at clock reading [T] leaves it: the
    level is in range and less than one leak interval has gone by since
    [lastLeakTime]. *)
Definition settled (T : Z) (bucket : Bucket) : Prop :=
  0 ≤ queue bucket ≤ queueCapacity ∧
  0 ≤ T - lastLeakTime bucket < leakRate.

End Limiter.

Definition queueCapacity : Z := 10.
Definition leakRate : Z := 1000.

End LeakyBucket.

(** ** Delaying throttle ([API-Throttling/middleware.js]) *)

Module Throttle.

Section Middleware.
Variables (MAX_REQUESTS TIME_WINDOW : Z).

(** [.filter(ts => currentTime - ts < TIME_WINDOW)] *)
Definition recent (currentTime : Z) (timestamps : list Z) : list Z :=
  filter (λ ts, currentTime - ts < TIME_WINDOW) timestamps.

(** The synchronous part of the middleware.  When the limit is reached it
    answers nothing and arms a timer; [timestamps[0]] is then read from an
    array of at least [MAX_REQUESTS] elements. *)
Definition throttleMiddleware
    (IPMap : gmap string (list Z)) (ip : string) (currentTime : Z)
  : gmap string (list Z) * Response :=
  let IPMap1 :=
    match IPMap !! ip with
    | None => <[ip := []]> IPMap
    | Some _ => IPMap
    end in
  let timestamps := recent currentTime (default [] (IPMap1 !! ip)) in
  let IPMap2 := <[ip := timestamps]> IPMap1 in
  if bool_decide (Z.of_nat (length timestamps) < MAX_REQUESTS) then
    (<[ip := timestamps ++ [currentTime]]> IPMap2, Next)
  else
    let delay := TIME_WINDOW - (currentTime - default currentTime (head timestamps)) in
    (IPMap2, Timer delay).

(** The arrow function handed to [setTimeout], run when the timer fires
    and the clock reads [now].  [IPMap.get(ip).filter] throws when the
    address has no entry: [None]. *)
Definition timerCallback
    (IPMap : gmap string (list Z)) (ip : string) (now : Z)
  : option (gmap string (list Z) * Response) :=
  match IPMap !! ip with
  | None => None
  | Some stored =>
      let updatedTimestamps := recent now stored ++ [now] in
      Some (<[ip := updatedTimestamps]> IPMap, Next)
  end.

(** What the event loop runs for this middleware: a request arrives, or
    an armed timer fires. *)
Inductive Event : Type :=
  | Arrival (ip : string) (currentTime : Z)
  | TimerFired (ip : string) (now : Z).

(** The events in the order the event loop takes them; [None] when a
    callback throws. *)
Fixpoint serve (IPMap : gmap string (list Z)) (events : list Event)
  : option (gmap string (list Z) * list Response) :=
  match events with
  | [] => Some (IPMap, [])
  | Arrival ip currentTime :: rest =>
      let '(IPMap1, r) := throttleMiddleware IPMap ip currentTime in
      match serve IPMap1 rest with
      | Some (IPMap2, rs) => Some (IPMap2, r :: rs)
      | None => None
      end
  | TimerFired ip now :: rest =>
      match timerCallback IPMap ip now with
      | Some (IPMap1, r) =>
          match serve IPMap1 rest with
          | Some (IPMap2, rs) => Some (IPMap2, r :: rs)
          | None => None
          end
      | None => None
      end
  end.

(** Timers are armed by the middleware only: a timer fires for an address
    after a request of that address has arrived. *)
Fixpoint timers_follow_arrivals (seen : gset string) (events : list Event) : Prop :=
  match events with
  | [] => True
  | Arrival ip _ :: rest => timers_follow_arrivals ({[ip]} ∪ seen) rest
  | TimerFired ip _ :: rest => ip ∈ seen ∧ timers_follow_arrivals seen rest
  end.

End Middleware.

Definition MAX_REQUESTS : Z := 5.
Definition TIME_WINDOW : Z := 1000.

(** The clock reading an event takes: [currentTime] of the middleware,
    [now] of the callback. *)
Definition event_time (e : Event) : Z :=
  match e with
  | Arrival _ currentTime => currentTime
  | TimerFired _ now => now
  end.

(** The readings of a run never go back. *)
Definition events_clock_ok (events : list Event) : Prop :=
  StronglySorted Z.le (event_time <$> events).

(** A request of [ip] that arrives with a reading in [[lo, hi]] and is
    handed on at once, by the middleware itself. *)
Definition passed_at_once (ip : string) (lo hi : Z) (p : Event * Response) : bool :=
  match p with
  | (Arrival ip' currentTime, Next) =>
      bool_decide (ip' = ip ∧ lo ≤ currentTime ≤ hi)
  | _ => false
  end.

Definition passed_at_once_between
    (ip : string) (lo hi : Z) (events : list Event) (rs : list Response) : nat :=
  length (filter (λ p, passed_at_once ip lo hi p) (zip events rs)).

(** No stored reading is ahead of the reading [lo]. *)
Definition behind (lo : Z) (IPMap : gmap string (list Z)) : Prop :=
  ∀ ip stored, IPMap !! ip = Some stored → Forall (λ ts, ts ≤ lo) stored.

(** The stored readings of [ip] that are not before [lo]. *)
Definition held_since (lo : Z) (ip : string) (IPMap : gmap string (list Z)) : nat :=
  length (filter (λ ts, lo ≤ ts) (default [] (IPMap !! ip))).

End Throttle.

(** ** The middleware chain of [rate-limiting/server.js] *)

(** [app.use(a); app.use(b)]: Express hands a request to [b] only when
    [a] has called [next()]; a middleware that answers ends the chain.
    Each middleware has its own store and reads [Date.now()] itself, so
    a request carries one clock reading per middleware. *)
Definition Middleware (S T : Type) : Type := S → string → T → S * Response.

Definition chain {S1 S2 T1 T2 : Type}
    (first : Middleware S1 T1) (then_ : Middleware S2 T2)
  : Middleware (S1 * S2) (T1 * T2) :=
  λ stores ip readings,
    let '(store1, r1) := first stores.1 ip readings.1 in
    if admitted r1 then
      let '(store2, r2) := then_ stores.2 ip readings.2 in
      ((store1, store2), r2)
    else ((store1, stores.2), r1).

(** A run of the server over requests in arrival order. *)
Fixpoint exec {S T : Type} (m : Middleware S T) (s : S)
    (reqs : list (string * T)) : S * list Response :=
  match reqs with
  | [] => (s, [])
  | (ip, t) :: rest =>
      let '(s1, r) := m s ip t in
      let '(s2, rs) := exec m s1 rest in
      (s2, r :: rs)
  end.

(** The requests that were handed on. *)
Definition handed_on {T : Type} (reqs : list (string * T))
    (rs : list Response) : list (string * T) :=
  (filter (λ p : (string * T) * Response, admitted p.2) (zip reqs rs)).*1.

(** A request seen with the first reading only, and with the others. *)
Definition first_reading {T1 T2 : Type} (reqs : list (string * (T1 * T2)))
  : list (string * T1) := (λ q, (q.1, q.2.1)) <$> reqs.

Definition later_readings {T1 T2 : Type} (reqs : list (string * (T1 * T2)))
  : list (string * T2) := (λ q, (q.1, q.2.2)) <$> reqs.

Module Server.

(** The five [app.use] lines, in their order, with the constants of the
    five modules. *)
Definition fixedWindow :=
  FixedWindow.fixedWindowRateLimiter FixedWindow.windowTime FixedWindow.maxRequests.
Definition slidingLog :=
  SlidingWindowLog.slidingWindowRateLimiter
    SlidingWindowLog.windowMs SlidingWindowLog.maxRequests.
Definition slidingCounter :=
  SlidingWindowCounter.slidingWindowCounterRateLimiter
    SlidingWindowCounter.windowSize SlidingWindowCounter.maxRequests.
Definition tokenBucket :=
  TokenBucket.tokenBucketRateLimiter
    TokenBucket.bucketCapacity TokenBucket.refillRate.
Definition leakyBucket :=
  LeakyBucket.leakyBucketRateLimiter LeakyBucket.queueCapacity LeakyBucket.leakRate.

Definition app :=
  chain fixedWindow
    (chain slidingLog (chain slidingCounter (chain tokenBucket leakyBucket))).

(** The stores when the process starts. *)
Definition fresh :
  gmap string FixedWindow.Entry
  * (gmap string (list Z)
     * (gmap string SlidingWindowCounter.Entry
        * (gmap string TokenBucket.Bucket * gmap string LeakyBucket.Bucket))) :=
  (∅, (∅, (∅, (∅, ∅)))).

(** The requests each limiter gets to see in a run of [app]: the fixed
    window sees all of them, every other limiter those that the limiter
    before it has seen and handed on. *)
Definition seen_fixedWindow
    (reqs : list (string * (Z * (Z * (Z * (Z * Z)))))) : list Request :=
  first_reading reqs.

Definition after_fixedWindow
    (reqs : list (string * (Z * (Z * (Z * (Z * Z))))))
  : list (string * (Z * (Z * (Z * Z)))) :=
  later_readings (handed_on reqs (run fixedWindow ∅ (seen_fixedWindow reqs)).2).

Definition seen_slidingLog reqs : list Request :=
  first_reading (after_fixedWindow reqs).

Definition after_slidingLog reqs : list (string * (Z * (Z * Z))) :=
  later_readings (handed_on (after_fixedWindow reqs)
                    (run slidingLog ∅ (seen_slidingLog reqs)).2).

Definition seen_slidingCounter reqs : list Request :=
  first_reading (after_slidingLog reqs).

Definition after_slidingCounter reqs : list (string * (Z * Z)) :=
  later_readings (handed_on (after_slidingLog reqs)
                    (run slidingCounter ∅ (seen_slidingCounter reqs)).2).

Definition seen_tokenBucket reqs : list Request :=
  first_reading (after_slidingCounter reqs).

Definition seen_leakyBucket reqs : list Request :=
  later_readings (handed_on (after_slidingCounter reqs)
                    (run tokenBucket ∅ (seen_tokenBucket reqs)).2).

(** The requests that reach the route handler, with the reading the
    leaky bucket took. *)
Definition served reqs : list Request :=
  handed_on (seen_leakyBucket reqs) (run leakyBucket ∅ (seen_leakyBucket reqs)).2.

End Server.

(** * Properties *)

(** ** Arithmetic of the quotients *)

Lemma Math_floor_quot (a d : Z) : Math_floor (num a / num d) = a / d.
Proof. unfold Math_floor, num. symmetry. apply Zdiv_Qdiv. Qed.

Lemma Math_ceil_quot (a d : Z) : Math_ceil (num a / num d) = - ((- a) / d).
Proof.
  unfold Math_ceil, Qceiling, num. f_equal.
  rewrite (Zdiv_Qdiv (- a) d). apply Qfloor_comp.
  rewrite inject_Z_opp. unfold Qdiv. ring.
Qed.

Lemma Math_floor_scaled (a r d : Z) :
  Math_floor ((num a / num d) * num r) = (a * r) / d.
Proof.
  rewrite <- Math_floor_quot. unfold Math_floor, num. apply Qfloor_comp.
  rewrite inject_Z_mult. unfold Qdiv. ring.
Qed.

(** ** Runs *)

Section RunFacts.
Context {St : Type}.
Variable limiter : gmap string St → string → Z → gmap string St * Response.

Lemma run_cons store ip now rest :
  run limiter store ((ip, now) :: rest) =
  ((run limiter (limiter store ip now).1 rest).1,
   (limiter store ip now).2 :: (run limiter (limiter store ip now).1 rest).2).
Proof.
  simpl. destruct (limiter store ip now) as [store1 r]. simpl.
  by destruct (run limiter store1 rest).
Qed.

Lemma run_length reqs : ∀ store, length (run limiter store reqs).2 = length reqs.
Proof.
  induction reqs as [|[ip now] rest IH]; intros store; [done|].
  rewrite run_cons. simpl. by rewrite IH.
Qed.

Lemma run_app reqs1 reqs2 : ∀ store,
  run limiter store (reqs1 ++ reqs2) =
  ((run limiter (run limiter store reqs1).1 reqs2).1,
   (run limiter store reqs1).2 ++ (run limiter (run limiter store reqs1).1 reqs2).2).
Proof.
  induction reqs1 as [|[ip now] rest IH]; intros store.
  - simpl. by destruct (run limiter store reqs2).
  - rewrite <- app_comm_cons, !run_cons, IH. done.
Qed.

Lemma run_snoc store reqs ip now :
  run limiter store (reqs ++ [(ip, now)]) =
  ((limiter (run limiter store reqs).1 ip now).1,
   (run limiter store reqs).2 ++ [(limiter (run limiter store reqs).1 ip now).2]).
Proof. rewrite run_app, run_cons. done. Qed.

Lemma times_of_cons ip ip0 now rest :
  times_of ip ((ip0, now) :: rest) =
  if decide (ip0 = ip) then now :: times_of ip rest else times_of ip rest.
Proof.
  unfold times_of. case_decide.
  - by rewrite filter_cons_True.
  - by rewrite filter_cons_False.
Qed.

Lemma responses_of_cons ip ip0 now rest r rs :
  responses_of ip ((ip0, now) :: rest) (r :: rs) =
  if decide (ip0 = ip) then r :: responses_of ip rest rs
  else responses_of ip rest rs.
Proof.
  unfold responses_of. simpl zip. case_decide.
  - by rewrite filter_cons_True.
  - by rewrite filter_cons_False.
Qed.

(** A limiter is per-client when a call touches no other client's entry
    and looks at nothing but the caller's own. *)
Hypothesis limiter_frame : ∀ store ip now ip',
  ip' ≠ ip → (limiter store ip now).1 !! ip' = store !! ip'.
Hypothesis limiter_local : ∀ store1 store2 ip now,
  store1 !! ip = store2 !! ip →
  (limiter store1 ip now).2 = (limiter store2 ip now).2 ∧
  (limiter store1 ip now).1 !! ip = (limiter store2 ip now).1 !! ip.

(** Then the other clients' requests can be struck from a run without
    changing what one client sees. *)
Lemma run_per_client reqs : ∀ store1 store2 ip,
  store1 !! ip = store2 !! ip →
  (run limiter store1 reqs).1 !! ip =
    (run limiter store2 (from ip (times_of ip reqs))).1 !! ip ∧
  responses_of ip reqs (run limiter store1 reqs).2 =
    (run limiter store2 (from ip (times_of ip reqs))).2.
Proof.
  induction reqs as [|[ip0 now] rest IH]; intros store1 store2 ip Heq; [done|].
  rewrite run_cons, times_of_cons. cbn [fst snd].
  rewrite responses_of_cons.
  destruct (decide (ip0 = ip)) as [->|Hne].
  - change (from ip (now :: times_of ip rest))
      with ((ip, now) :: from ip (times_of ip rest)).
    rewrite run_cons. cbn [fst snd].
    destruct (limiter_local store1 store2 ip now Heq) as [Hr Hs].
    destruct (IH _ _ ip Hs) as [IH1 IH2].
    by rewrite Hr, IH1, IH2.
  - apply IH. rewrite <- Heq. apply limiter_frame. congruence.
Qed.

End RunFacts.

Lemma Math_ceil_1000 (a : Z) : Math_ceil (num a / 1000) = - ((- a) / 1000).
Proof. apply (Math_ceil_quot a 1000). Qed.

Lemma Math_ceil_1000_bounds (a : Z) :
  1000 * (Math_ceil (num a / 1000) - 1) < a ≤ 1000 * Math_ceil (num a / 1000).
Proof.
  rewrite Math_ceil_1000.
  pose proof (Z.div_mod (- a) 1000 ltac:(lia)).
  pose proof (Z.mod_pos_bound (- a) 1000 ltac:(lia)). lia.
Qed.

Lemma clock_ok_times_of ip reqs :
  clock_ok reqs → StronglySorted Z.le (times_of ip reqs).
Proof.
  unfold clock_ok, times_of. induction reqs as [|[ip0 now] rest IH]; [done|].
  rewrite fmap_cons. intros Hs. apply StronglySorted_inv in Hs as [Hs Hall].
  destruct (decide (ip0 = ip)) as [->|Hne].
  - rewrite filter_cons_True by done. rewrite fmap_cons.
    constructor; [by apply IH|].
    rewrite Forall_forall in Hall |- *. intros t Ht. apply Hall.
    apply list_elem_of_fmap in Ht as [[ip' t'] [-> Ht]].
    apply list_elem_of_fmap. exists (ip', t'). split; [done|].
    by apply list_elem_of_filter in Ht as [_ Ht].
  - rewrite filter_cons_False by (simpl; congruence). by apply IH.
Qed.

Lemma clock_ok_snoc reqs ip now T :
  clock_ok (reqs ++ [(ip, now)]) → last (times_of ip reqs) = Some T → T ≤ now.
Proof.
  unfold clock_ok. rewrite fmap_app. intros Hsorted Hlast.
  apply StronglySorted_app in Hsorted as (Hle & _ & _).
  apply Hle; [|set_solver].
  apply last_Some in Hlast as [l Hl].
  assert (T ∈ times_of ip reqs) as Hin by (rewrite Hl; set_solver).
  unfold times_of in Hin. apply list_elem_of_fmap in Hin as [[ip' t] [-> Hin]].
  apply list_elem_of_filter in Hin as [_ Hin].
  apply list_elem_of_fmap. by exists (ip', t).
Qed.

(** ** Fixed window counter *)

Module FixedWindowFacts.
Import FixedWindow.

Section Facts.
Variables (windowTime maxRequests : Z).
Local Abbreviation limiter := (fixedWindowRateLimiter windowTime maxRequests).

Lemma fw_frame store ip now ip' :
  ip' ≠ ip → (limiter store ip now).1 !! ip' = store !! ip'.
Proof.
  intros Hne. unfold fixedWindowRateLimiter.
  destruct (store !! ip) as [e|]; repeat case_bool_decide; simpl;
    by rewrite ?lookup_insert_ne.
Qed.

Lemma fw_local store1 store2 ip now :
  store1 !! ip = store2 !! ip →
  (limiter store1 ip now).2 = (limiter store2 ip now).2 ∧
  (limiter store1 ip now).1 !! ip = (limiter store2 ip now).1 !! ip.
Proof.
  intros Heq. unfold fixedWindowRateLimiter. rewrite <- Heq.
  destruct (store1 !! ip) as [e|] eqn:E; repeat case_bool_decide; simpl;
    rewrite ?lookup_insert_eq; try done.
  by rewrite E, <- Heq.
Qed.

Lemma fw_open store ip now :
  opens_window windowTime store ip now →
  limiter store ip now = (<[ip := {| count := 1; windowStart := now |}]> store, Next).
Proof.
  unfold opens_window, fixedWindowRateLimiter.
  destruct (store !! ip) as [e|]; [|done].
  intros Hexp. by rewrite bool_decide_eq_false_2.
Qed.

Lemma fw_full store ip now entry :
  store !! ip = Some entry →
  now - windowStart entry < windowTime →
  ¬ (count entry < maxRequests) →
  limiter store ip now =
  (store, Status429 (Math_ceil (num (windowTime - (now - windowStart entry)) / 1000))).
Proof.
  intros Hs Hin Hfull. unfold fixedWindowRateLimiter. rewrite Hs.
  rewrite bool_decide_eq_true_2 by done. by rewrite bool_decide_eq_false_2.
Qed.

(** A burst that stays inside the window opened at [t0]: as long as the
    counter is below the limit every request is handed on. *)
Lemma fw_burst ts : ∀ store ip c t0,
  store !! ip = Some {| count := c; windowStart := t0 |} →
  c + Z.of_nat (length ts) ≤ maxRequests →
  Forall (λ t, t - t0 < windowTime) ts →
  (run limiter store (from ip ts)).2 = replicate (length ts) Next ∧
  (run limiter store (from ip ts)).1 !! ip
    = Some {| count := c + Z.of_nat (length ts); windowStart := t0 |}.
Proof.
  induction ts as [|t ts IH]; intros store ip c t0 Hs Hc Hin.
  - simpl. rewrite Hs. split; [done|]. do 2 f_equal. lia.
  - change (from ip (t :: ts)) with ((ip, t) :: from ip ts).
    rewrite run_cons. cbn [fst snd length replicate].
    apply Forall_cons in Hin as [Ht Hin].
    assert (limiter store ip t =
            (<[ip := {| count := c + 1; windowStart := t0 |}]> store, Next))
      as Hstep.
    { unfold fixedWindowRateLimiter. rewrite Hs. simpl.
      rewrite bool_decide_eq_true_2 by done.
      rewrite bool_decide_eq_true_2; [done|]. simpl in Hc. lia. }
    rewrite Hstep. cbn [fst snd].
    destruct (IH (<[ip := {| count := c + 1; windowStart := t0 |}]> store)
                ip (c + 1) t0) as [IH1 IH2]; [apply lookup_insert_eq| |done|].
    + simpl in Hc. lia.
    + rewrite IH1, IH2. split; [done|]. do 2 f_equal.
      rewrite Nat2Z.inj_succ. lia.
Qed.

(** C3.  Whatever the other clients do in between: when a client's
    request at [t0] opens a window and its next requests [ts], which
    bring the total to [maxRequests], and one more at [now] all fall
    inside that window, the first [maxRequests] are handed on and the
    last is answered 429 with [retryAfter] the remaining window time in
    seconds, rounded up. *)
Theorem fixed_window_fills_then_rejects
    (store : gmap string Entry) (reqs : list Request) (ip : string)
    (t0 : Z) (ts : list Z) (now : Z) :
  opens_window windowTime store ip t0 →
  times_of ip reqs = t0 :: ts ++ [now] →
  Z.of_nat (length (t0 :: ts)) = maxRequests →
  Forall (λ t, t - t0 < windowTime) ts →
  now - t0 < windowTime →
  let retryAfter := Math_ceil (num (windowTime - (now - t0)) / 1000) in
  responses_of ip reqs
    (run (fixedWindowRateLimiter windowTime maxRequests) store reqs).2
    = replicate (length (t0 :: ts)) Next ++ [Status429 retryAfter] ∧
  1000 * (retryAfter - 1) < windowTime - (now - t0) ≤ 1000 * retryAfter.
Proof.
  intros Hopen Htimes Hlen Hin Hnow retryAfter.
  split; [|apply Math_ceil_1000_bounds].
  destruct (run_per_client limiter fw_frame fw_local reqs store store ip eq_refl)
    as [_ ->].
  rewrite Htimes.
  change (from ip (t0 :: ts ++ [now]))
    with ((ip, t0) :: from ip (ts ++ [now])).
  rewrite run_cons, (fw_open _ _ _ Hopen). cbn [fst snd].
  unfold from. rewrite fmap_app. fold (from ip ts). fold (from ip [now]).
  rewrite run_app. cbn [fst snd].
  set (store1 := <[ip := {| count := 1; windowStart := t0 |}]> store).
  destruct (fw_burst ts store1 ip 1 t0) as [Hrs Hst];
    [apply lookup_insert_eq| simpl in Hlen; lia | done |].
  rewrite Hrs. change (from ip [now]) with [(ip, now)].
  rewrite run_cons. cbn [run fst snd length replicate].
  rewrite <- app_comm_cons. do 3 f_equal.
  rewrite (fw_full _ _ _ _ Hst); [done|done|]. simpl in Hlen |- *. lia.
Qed.

End Facts.

Lemma fixed_window_fills_then_rejects_witness :
  let reqs := from "10.0.0.7" (0 :: replicate 99 0 ++ [1000]) in
  responses_of "10.0.0.7" reqs
    (run (fixedWindowRateLimiter windowTime maxRequests) ∅ reqs).2
    = replicate 100 Next ++ [Status429 899] ∧
  1000 * (899 - 1) < windowTime - (1000 - 0) ≤ 1000 * 899.
Proof.
  apply (fixed_window_fills_then_rejects windowTime maxRequests
           ∅ (from "10.0.0.7" (0 :: replicate 99 0 ++ [1000])) "10.0.0.7"
           0 (replicate 99 0) 1000).
  - exact I.
  - vm_compute. reflexivity.
  - reflexivity.
  - apply Forall_replicate. reflexivity.
  - reflexivity.
Defined.

End FixedWindowFacts.

(** ** Counting over a run *)

Lemma admitted_between_per_client ip lo hi reqs : ∀ rs,
  length rs = length reqs →
  admitted_between ip lo hi reqs rs =
  length (filter (λ p : Z * Response, admitted p.2 ∧ lo ≤ p.1 ≤ hi)
            (zip (times_of ip reqs) (responses_of ip reqs rs))).
Proof.
  unfold admitted_between.
  induction reqs as [|[ip0 now] rest IH]; intros [|r rs] Hlen; try done.
  rewrite times_of_cons, responses_of_cons. simpl zip.
  injection Hlen as Hlen. specialize (IH rs Hlen).
  destruct (decide (ip0 = ip)) as [->|Hne].
  - simpl zip. rewrite !filter_cons. simpl.
    destruct (decide (admitted r ∧ lo ≤ now ≤ hi)) as [Hin|Hout].
    + rewrite decide_True by done. simpl. by rewrite IH.
    + rewrite decide_False by tauto. done.
  - rewrite filter_cons_False by (simpl; tauto). done.
Qed.

Lemma count_admitted_le (P : Z → Prop) `{!∀ t, Decision (P t)} ts : ∀ rs,
  (length (filter (λ p : Z * Response, admitted p.2 ∧ P p.1) (zip ts rs))
   ≤ length (filter P ts))%nat.
Proof.
  induction ts as [|t ts IH]; intros [|r rs];
    try (cbn [zip zip_with]; rewrite filter_nil; simpl; lia).
  - specialize (IH rs). cbn [zip zip_with]. rewrite !filter_cons. simpl.
    destruct (decide (admitted r ∧ P t)) as [[_ HP]|Hn].
    + rewrite decide_True by done. simpl. lia.
    + destruct (decide (P t)); simpl; lia.
Qed.

Lemma length_filter_mono (P Q : Z → Prop)
    `{!∀ t, Decision (P t), !∀ t, Decision (Q t)} (ts : list Z) :
  (∀ t, t ∈ ts → P t → Q t) →
  (length (filter P ts) ≤ length (filter Q ts))%nat.
Proof.
  induction ts as [|t ts IH]; intros Himp; [done|].
  rewrite !filter_cons.
  assert (length (filter P ts) ≤ length (filter Q ts))%nat as Hle.
  { apply IH. intros t' Ht'. apply Himp. by right. }
  destruct (decide (P t)) as [HP|HP].
  - rewrite decide_True by (apply Himp; [left|done]). simpl. lia.
  - destruct (decide (Q t)); simpl; lia.
Qed.

(** ** Sliding window log *)

Module SlidingWindowLogFacts.
Import SlidingWindowLog.

Section Facts.
Variables (windowMs maxRequests : Z).
Local Abbreviation limiter := (slidingWindowRateLimiter windowMs maxRequests).

Lemma swl_frame store ip now ip' :
  ip' ≠ ip → (limiter store ip now).1 !! ip' = store !! ip'.
Proof.
  intros Hne. unfold slidingWindowRateLimiter.
  destruct (store !! ip) as [l|]; repeat case_bool_decide; simpl;
    by rewrite ?lookup_insert_ne.
Qed.

Lemma swl_local store1 store2 ip now :
  store1 !! ip = store2 !! ip →
  (limiter store1 ip now).2 = (limiter store2 ip now).2 ∧
  (limiter store1 ip now).1 !! ip = (limiter store2 ip now).1 !! ip.
Proof.
  intros Heq. unfold slidingWindowRateLimiter. rewrite <- Heq.
  destruct (store1 !! ip) as [l|]; repeat case_bool_decide; simpl;
    by rewrite ?lookup_insert_eq.
Qed.

(** C6.  One call: the stored sequence (empty for a new address) loses
    every reading with [now - ts > windowMs], gets [now] appended and is
    stored back; the request is answered 429 when the new length exceeds
    [maxRequests], with [retryAfter] computed from the first element of
    the new sequence, and handed on otherwise.  For a new address the
    source hands the request on without the test, which agrees with the
    test as soon as [maxRequests] is at least one. *)
Theorem sliding_log_call
    (requestLogs : gmap string (list Z)) (ip : string) (now : Z) :
  is_Some (requestLogs !! ip) ∨ 1 ≤ maxRequests →
  let stored := default [] (requestLogs !! ip) in
  let updated := filter (λ ts, ¬ (now - ts > windowMs)) stored ++ [now] in
  (∀ ts, ts ∈ updated ↔ (ts ∈ stored ∧ now - ts ≤ windowMs) ∨ ts = now) ∧
  ∃ oldestRetained, head updated = Some oldestRetained ∧
    slidingWindowRateLimiter windowMs maxRequests requestLogs ip now =
    (<[ip := updated]> requestLogs,
     if bool_decide (Z.of_nat (length updated) > maxRequests) then
       Status429 (Math_ceil (num (windowMs - (now - oldestRetained)) / 1000))
     else Next).
Proof.
  intros Hcfg stored updated.
  assert (filter (λ ts, ¬ (now - ts > windowMs)) stored = prune windowMs now stored)
    as Hprune by (apply list_filter_iff; intros ts; lia).
  split.
  { intros ts. unfold updated. rewrite elem_of_app, list_elem_of_filter.
    rewrite list_elem_of_singleton. split; intros [[? ?]|?]; auto; left; split;
      auto; lia. }
  exists (default now (head updated)). split.
  { unfold updated. by destruct (filter _ stored). }
  unfold slidingWindowRateLimiter. subst updated stored. rewrite Hprune.
  destruct (requestLogs !! ip) as [timeStamps|] eqn:E; simpl.
  - destruct (bool_decide_reflect
               (maxRequests < Z.of_nat (length (prune windowMs now timeStamps ++ [now]))))
      as [Hgt|Hle].
    + by rewrite bool_decide_eq_true_2 by lia.
    + by rewrite bool_decide_eq_false_2 by lia.
  - destruct Hcfg as [[? [=]]|Hmax].
    rewrite bool_decide_eq_false_2 by (simpl; lia). done.
Qed.

Lemma swl_new store ip now :
  store !! ip = None → limiter store ip now = (<[ip := [now]]> store, Next).
Proof. intros Hs. unfold slidingWindowRateLimiter. by rewrite Hs. Qed.

Lemma swl_seen store ip now timeStamps :
  store !! ip = Some timeStamps →
  let updated := prune windowMs now timeStamps ++ [now] in
  (limiter store ip now).1 = <[ip := updated]> store ∧
  (admitted (limiter store ip now).2 → Z.of_nat (length updated) ≤ maxRequests).
Proof.
  intros Hs updated. unfold slidingWindowRateLimiter. rewrite Hs.
  fold updated. case_bool_decide; simpl; split; try done. intros _. lia.
Qed.

Lemma prune_prune t now ts :
  t ≤ now →
  prune windowMs now (prune windowMs t ts ++ [t]) = prune windowMs now (ts ++ [t]).
Proof.
  intros Hle. unfold prune. rewrite !filter_app. f_equal.
  apply list_filter_filter_l. intros x Hx. lia.
Qed.

(** After a client's requests [ts] and then one at [now], the clock
    never running backwards, the log holds exactly the requests of the
    window that ends at [now], rejected ones included. *)
Lemma swl_log_after ip ts : ∀ now,
  StronglySorted Z.le (ts ++ [now]) →
  (run limiter ∅ (from ip (ts ++ [now]))).1 !! ip
    = Some (prune windowMs now ts ++ [now]).
Proof.
  induction ts as [|t ts IH] using rev_ind; intros now Hsorted.
  - change (from ip ([] ++ [now])) with [(ip, now)].
    rewrite run_cons, swl_new by done. simpl. by rewrite lookup_insert_eq.
  - unfold from. rewrite fmap_app. fold (from ip (ts ++ [t])).
    change ((λ t0, (ip, t0)) <$> [now]) with [(ip, now)].
    rewrite run_snoc. cbn [fst].
    apply StronglySorted_app in Hsorted as (Hle & Hs & _).
    destruct (swl_seen _ ip now _ (IH t Hs)) as [-> _].
    rewrite lookup_insert_eq, prune_prune; [done|]. apply Hle; set_solver.
Qed.

(** A request that is handed on leaves a log no longer than the limit. *)
Lemma swl_admitted_log ip ts now :
  1 ≤ maxRequests →
  StronglySorted Z.le (ts ++ [now]) →
  admitted (limiter (run limiter ∅ (from ip ts)).1 ip now).2 →
  Z.of_nat (length (prune windowMs now ts ++ [now])) ≤ maxRequests.
Proof.
  intros Hmax Hsorted.
  destruct ts as [|t ts _] using rev_ind.
  - intros _. simpl. lia.
  - apply StronglySorted_app in Hsorted as (Hle & Hs & _).
    destruct (swl_seen _ ip now _ (swl_log_after ip ts t Hs)) as [_ Hadm].
    intros Hr. specialize (Hadm Hr).
    rewrite prune_prune in Hadm; [done|]. apply Hle; set_solver.
Qed.

(** The bound for one client's requests taken alone. *)
Lemma swl_bound_single ip ts : ∀ lo,
  1 ≤ maxRequests →
  StronglySorted Z.le ts →
  Z.of_nat (length (filter (λ p : Z * Response,
                              admitted p.2 ∧ lo ≤ p.1 ≤ lo + windowMs)
                      (zip ts (run limiter ∅ (from ip ts)).2)))
  ≤ maxRequests.
Proof.
  intros lo Hmax.
  induction ts as [|now ts IH] using rev_ind; intros Hsorted.
  - simpl. lia.
  - unfold from. rewrite fmap_app. fold (from ip ts).
    change ((λ t0, (ip, t0)) <$> [now]) with [(ip, now)].
    rewrite run_snoc. cbn [snd].
    rewrite zip_with_app by (rewrite run_length; unfold from;
                             by rewrite length_fmap).
    rewrite filter_app, length_app.
    set (r := (limiter (run limiter ∅ (from ip ts)).1 ip now).2).
    cbn [zip zip_with]. rewrite filter_cons, filter_nil. cbn [fst snd].
    destruct (decide (admitted r ∧ lo ≤ now ≤ lo + windowMs)) as [[Hr Hin]|Hout].
    + pose proof (swl_admitted_log ip ts now Hmax Hsorted Hr) as Hlog.
      rewrite length_app in Hlog. simpl in Hlog |- *.
      pose proof (count_admitted_le (λ t, lo ≤ t ≤ lo + windowMs) ts
                    (run limiter ∅ (from ip ts)).2) as H1.
      pose proof (length_filter_mono (λ t, lo ≤ t ≤ lo + windowMs)
                    (λ ts0, now - ts0 ≤ windowMs) ts) as H2.
      unfold prune in Hlog. simpl in H1.
      assert (∀ t, t ∈ ts → lo ≤ t ≤ lo + windowMs → now - t ≤ windowMs) as Himp
        by (intros; lia).
      specialize (H2 Himp). lia.
    + apply StronglySorted_app_1_l in Hsorted. specialize (IH Hsorted).
      simpl. lia.
Qed.

(** C1.  In a run of the server from an empty log store, with the clock
    never running backwards, the requests of one client that were handed
    on and whose clock readings lie in an interval [[T - windowMs, T]]
    are never more than [maxRequests], whatever [T] is, so in particular
    for the interval that ends at the current time.  The log the run
    leaves for the client holds every request of the window that ends at
    the client's last request, the rejected ones too. *)
Theorem sliding_log_window_bound (reqs : list Request) (ip : string) (T : Z) :
  1 ≤ maxRequests →
  clock_ok reqs →
  Z.of_nat (admitted_between ip (T - windowMs) T reqs
              (run (slidingWindowRateLimiter windowMs maxRequests) ∅ reqs).2)
  ≤ maxRequests ∧
  (∀ ts now, times_of ip reqs = ts ++ [now] →
     (run (slidingWindowRateLimiter windowMs maxRequests) ∅ reqs).1 !! ip
     = Some (filter (λ t, now - t ≤ windowMs) ts ++ [now])).
Proof.
  intros Hmax Hclock.
  pose proof (clock_ok_times_of ip reqs Hclock) as Hsorted.
  destruct (run_per_client limiter swl_frame swl_local reqs ∅ ∅ ip eq_refl)
    as [Hst Hrs].
  split.
  - rewrite admitted_between_per_client by apply run_length. rewrite Hrs.
    pose proof (swl_bound_single ip (times_of ip reqs) (T - windowMs) Hmax
                  Hsorted) as Hb.
    replace (T - windowMs + windowMs) with T in Hb by lia. exact Hb.
  - intros ts now Htimes. rewrite Hst, Htimes. rewrite Htimes in Hsorted.
    apply (swl_log_after ip ts now Hsorted).
Qed.

End Facts.

Lemma sliding_log_window_bound_witness :
  Z.of_nat (admitted_between "10.0.0.7" (900000 - windowMs) 900000
              [("10.0.0.7", 0); ("10.0.0.9", 10); ("10.0.0.7", 800000);
               ("10.0.0.7", 900000)]
              (run (slidingWindowRateLimiter windowMs maxRequests) ∅
                 [("10.0.0.7", 0); ("10.0.0.9", 10); ("10.0.0.7", 800000);
                  ("10.0.0.7", 900000)]).2)
  ≤ maxRequests.
Proof.
  apply (sliding_log_window_bound windowMs maxRequests
           [("10.0.0.7", 0); ("10.0.0.9", 10); ("10.0.0.7", 800000);
            ("10.0.0.7", 900000)] "10.0.0.7" 900000).
  - vm_compute. discriminate.
  - unfold clock_ok. simpl. repeat constructor; lia.
Defined.

Lemma sliding_log_call_witness :
  slidingWindowRateLimiter windowMs maxRequests
    {[ "10.0.0.7" := [0; 800000] ]} "10.0.0.7" 900000
  = ({[ "10.0.0.7" := [800000; 900000] ]}, Next).
Proof.
  pose proof (sliding_log_call windowMs maxRequests
                {[ "10.0.0.7" := [0; 800000] ]} "10.0.0.7" 900000) as H.
  cbv zeta in H.
  destruct H as (_ & oldestRetained & _ & ->).
  - left. vm_compute. by eexists.
  - reflexivity.
Defined.

End SlidingWindowLogFacts.

(** ** Token bucket *)

Module TokenBucketFacts.
Import TokenBucket.

Section Facts.
Variables (bucketCapacity refillRate : Z).
Local Abbreviation limiter := (tokenBucketRateLimiter bucketCapacity refillRate).

Lemma tb_frame store ip now ip' :
  ip' ≠ ip → (limiter store ip now).1 !! ip' = store !! ip'.
Proof.
  intros Hne. unfold tokenBucketRateLimiter.
  destruct (store !! ip) as [b|]; repeat case_bool_decide; simpl;
    by rewrite ?lookup_insert_ne.
Qed.

Lemma tb_local store1 store2 ip now :
  store1 !! ip = store2 !! ip →
  (limiter store1 ip now).2 = (limiter store2 ip now).2 ∧
  (limiter store1 ip now).1 !! ip = (limiter store2 ip now).1 !! ip.
Proof.
  intros Heq. unfold tokenBucketRateLimiter. rewrite <- Heq.
  destruct (store1 !! ip) as [b|]; repeat case_bool_decide; simpl;
    by rewrite ?lookup_insert_eq.
Qed.

(** [Math.floor(timeElapsed * refillRate)] as an integer quotient. *)
Lemma tokensToAdd_floor bucket now :
  tokensToAdd refillRate bucket now = ((now - lastRefill bucket) * refillRate) / 1000.
Proof. unfold tokensToAdd, timeElapsed. apply (Math_floor_scaled _ refillRate 1000). Qed.

Lemma tb_new store ip now :
  store !! ip = None →
  limiter store ip now =
  (<[ip := {| tokens := bucketCapacity - 1; lastRefill := now |}]> store, Next).
Proof. intros Hs. unfold tokenBucketRateLimiter. by rewrite Hs. Qed.

(** One call for a known address, with the quotient in [Z]. *)
Lemma tb_call store ip now bucket :
  store !! ip = Some bucket →
  let add := ((now - lastRefill bucket) * refillRate) / 1000 in
  let refilled := Z.min bucketCapacity (tokens bucket + add) in
  limiter store ip now =
  (<[ip := {| tokens := if bool_decide (0 < refilled) then refilled - 1 else refilled;
              lastRefill := if bool_decide (0 < add) then now
                            else lastRefill bucket |}]> store,
   if bool_decide (0 < refilled) then Next else Status429 1).
Proof.
  intros Hs add refilled. unfold tokenBucketRateLimiter, refill. rewrite Hs.
  cbn [tokens lastRefill]. rewrite tokensToAdd_floor. fold add.
  unfold Math_min. fold refilled. by case_bool_decide.
Qed.

(** A burst at one clock reading that earns no token: requests are handed
    on until the bucket is empty and answered 429 from then on. *)
Lemma tb_burst ip now n : ∀ store bucket,
  store !! ip = Some bucket →
  ((now - lastRefill bucket) * refillRate) / 1000 = 0 →
  0 ≤ tokens bucket ≤ bucketCapacity →
  let k := Nat.min n (Z.to_nat (tokens bucket)) in
  (run limiter store (from ip (replicate n now))).2
    = replicate k Next ++ replicate (n - k) (Status429 1) ∧
  (run limiter store (from ip (replicate n now))).1 !! ip
    = Some {| tokens := tokens bucket - Z.of_nat k;
              lastRefill := lastRefill bucket |}.
Proof.
  induction n as [|n IH]; intros store [tok lr] Hs Hadd Htok k.
  - simpl. rewrite Hs. split; [done|]. do 2 f_equal. simpl. lia.
  - change (from ip (replicate (S n) now))
      with ((ip, now) :: from ip (replicate n now)).
    rewrite run_cons, (tb_call _ _ _ _ Hs). cbn [fst snd tokens lastRefill] in *.
    rewrite Hadd, Z.add_0_r, (bool_decide_eq_false_2 (0 < 0)) by lia.
    rewrite Z.min_r by lia.
    set (store1 := <[ip := _]> store).
    case_bool_decide as Hpos.
    + destruct (IH store1 {| tokens := tok - 1; lastRefill := lr |})
        as [IH1 IH2]; [apply lookup_insert_eq|done|simpl; lia|].
      cbn [tokens lastRefill] in IH1, IH2. rewrite IH1, IH2. subst k.
      replace (Nat.min (S n) (Z.to_nat tok))
        with (S (Nat.min n (Z.to_nat (tok - 1)))) by lia.
      split; [done|]. do 2 f_equal. lia.
    + destruct (IH store1 {| tokens := tok; lastRefill := lr |})
        as [IH1 IH2]; [apply lookup_insert_eq|done|simpl; lia|].
      cbn [tokens lastRefill] in IH1, IH2. rewrite IH1, IH2. subst k.
      replace (Nat.min (S n) (Z.to_nat tok)) with 0%nat by lia.
      replace (Nat.min n (Z.to_nat tok)) with 0%nat by lia.
      split; [by rewrite Nat.sub_0_r|]. do 2 f_equal.
Qed.

Lemma count_admitted_replicate k j retryAfter :
  length (filter (λ r, admitted r)
            (replicate k Next ++ replicate j (Status429 retryAfter))) = k.
Proof.
  rewrite filter_app, length_app.
  assert (filter (λ r, admitted r) (replicate k Next) = replicate k Next) as ->.
  { induction k as [|k IH]; [done|]. simpl. rewrite filter_cons_True by done.
    by rewrite IH. }
  assert (filter (λ r, admitted r) (replicate j (Status429 retryAfter)) = []) as ->.
  { induction j as [|j IH]; [done|]. simpl. by rewrite filter_cons_False by auto. }
  rewrite length_replicate. simpl. lia.
Qed.

(** The number of requests a burst at [now] gets through is the count the
    refill at [now] leaves in the bucket. *)
Lemma tb_burst_admitted store ip now bucket n :
  store !! ip = Some bucket →
  let add := ((now - lastRefill bucket) * refillRate) / 1000 in
  let refilled := Z.min bucketCapacity (tokens bucket + add) in
  0 ≤ add → 0 ≤ refilled →
  burst_admitted limiter store ip now n = Nat.min n (Z.to_nat refilled).
Proof.
  intros Hs add refilled Hadd Href. unfold burst_admitted.
  destruct n as [|n]; [done|].
  change (from ip (replicate (S n) now))
    with ((ip, now) :: from ip (replicate n now)).
  rewrite run_cons, (tb_call _ _ _ _ Hs). fold add. fold refilled.
  cbn [fst snd]. set (store1 := <[ip := _]> store).
  set (bucket1 := {| tokens := if bool_decide (0 < refilled) then refilled - 1
                               else refilled;
                     lastRefill := if bool_decide (0 < add) then now
                                   else lastRefill bucket |}).
  destruct (tb_burst ip now n store1 bucket1) as [-> _].
  { apply lookup_insert_eq. }
  { subst bucket1. cbn [lastRefill]. case_bool_decide.
    - by rewrite Z.sub_diag.
    - subst add. lia. }
  { subst bucket1. cbn [tokens]. case_bool_decide; subst refilled; lia. }
  subst bucket1. cbn [tokens]. case_bool_decide.
  - rewrite filter_cons_True by done. cbn [length].
    rewrite count_admitted_replicate. lia.
  - rewrite filter_cons_False by auto. rewrite count_admitted_replicate. lia.
Qed.

Section Reachable.
Hypothesis capacity_pos : 1 ≤ bucketCapacity.
Hypothesis rate_nonneg : 0 ≤ refillRate.

Lemma tb_settled_step store ip T now bucket :
  store !! ip = Some bucket →
  settled bucketCapacity refillRate T bucket →
  T ≤ now →
  ∃ bucket1, (limiter store ip now).1 = <[ip := bucket1]> store ∧
             settled bucketCapacity refillRate now bucket1.
Proof.
  intros Hs (Htok & Hlr & Hcarry) Hle.
  rewrite (tb_call _ _ _ _ Hs). cbn [fst]. eexists. split; [done|].
  assert (0 ≤ (now - lastRefill bucket) * refillRate) as Hx by nia.
  unfold settled. cbn [tokens lastRefill].
  set (x := (now - lastRefill bucket) * refillRate) in *.
  repeat case_bool_decide; repeat split; try lia;
    Z.div_mod_to_equations; lia.
Qed.

Lemma tb_settled_run ip ts : ∀ now,
  StronglySorted Z.le (ts ++ [now]) →
  ∃ bucket, (run limiter ∅ (from ip (ts ++ [now]))).1 !! ip = Some bucket ∧
            settled bucketCapacity refillRate now bucket.
Proof.
  induction ts as [|t ts IH] using rev_ind; intros now Hsorted.
  - change (from ip ([] ++ [now])) with [(ip, now)].
    rewrite run_cons, tb_new by done. cbn [run fst].
    eexists. split; [apply lookup_insert_eq|].
    unfold settled. simpl. lia.
  - unfold from. rewrite fmap_app. fold (from ip (ts ++ [t])).
    change ((λ t0, (ip, t0)) <$> [now]) with [(ip, now)].
    rewrite run_snoc. cbn [fst].
    apply StronglySorted_app in Hsorted as (Hle & Hs & _).
    destruct (IH t Hs) as (bucket & Hb & Hset).
    destruct (tb_settled_step _ ip t now bucket Hb Hset) as (bucket1 & -> & Hset1).
    { apply Hle; set_solver. }
    exists bucket1. by rewrite lookup_insert_eq.
Qed.

(** Every bucket found in the store after a run is settled at the clock
    reading of its owner's last request. *)
Lemma tb_reachable reqs ip bucket :
  clock_ok reqs →
  (run limiter ∅ reqs).1 !! ip = Some bucket →
  ∃ T0, last (times_of ip reqs) = Some T0 ∧
        settled bucketCapacity refillRate T0 bucket.
Proof.
  intros Hclock.
  destruct (run_per_client limiter tb_frame tb_local reqs ∅ ∅ ip eq_refl)
    as [-> _].
  pose proof (clock_ok_times_of ip reqs Hclock) as Hsorted.
  destruct (times_of ip reqs) as [|T0 ts _] using rev_ind; [done|].
  intros Hb. exists T0. split; [apply last_snoc|].
  destruct (tb_settled_run ip ts T0 Hsorted) as (bucket' & Hb' & Hset).
  congruence.
Qed.

End Reachable.

(** C7, as the code has it.  Take any run from an empty store with the
    clock never running backwards, capacity at least one and a
    non-negative rate, and the bucket it leaves for [ip]; let [now] be a
    clock reading not before the run.
    - The stored count lies in [[0, bucketCapacity]].
    - [tokensToAdd] is the floor of elapsed seconds times rate, the
      refill sets the count to the minimum of capacity and count plus
      [tokensToAdd], and moves [lastRefill] to [now] only when
      [tokensToAdd] is positive.
    - The call at [now] hands the request on and takes exactly one token
      when the refilled count is positive, and answers 429 otherwise.
    - A burst at [now] gets [refilled] requests through, a burst right
      after the client's last request (clock reading [T0]) gets [tokens]
      through: the requests that became admissible while idle are at
      most the floor of rate times the seconds since [lastRefill], never
      beyond capacity.  [lastRefill] may lie before [T0], by less than
      one token's worth of time, so in seconds [t] since the last request
      the bound is floor(t * rate) + 1, and floor(t * rate) when the last
      request moved [lastRefill]. *)
Theorem token_bucket_invariant
    (reqs : list Request) (ip : string) (bucket : Bucket) (now : Z) :
  1 ≤ bucketCapacity →
  0 ≤ refillRate →
  clock_ok (reqs ++ [(ip, now)]) →
  let store := (run (tokenBucketRateLimiter bucketCapacity refillRate) ∅ reqs).1 in
  store !! ip = Some bucket →
  let add := ((now - lastRefill bucket) * refillRate) / 1000 in
  let refilled := Z.min bucketCapacity (tokens bucket + add) in
  let lastRefill1 := if bool_decide (0 < add) then now else lastRefill bucket in
  0 ≤ tokens bucket ≤ bucketCapacity ∧
  tokensToAdd refillRate bucket now = add ∧
  refill bucketCapacity refillRate bucket now
    = {| tokens := refilled; lastRefill := lastRefill1 |} ∧
  tokenBucketRateLimiter bucketCapacity refillRate store ip now =
    (if bool_decide (0 < refilled)
     then (<[ip := {| tokens := refilled - 1; lastRefill := lastRefill1 |}]> store,
           Next)
     else (<[ip := {| tokens := refilled; lastRefill := lastRefill1 |}]> store,
           Status429 1)) ∧
  ∃ T0, last (times_of ip reqs) = Some T0 ∧
    lastRefill bucket ≤ T0 ≤ now ∧
    (∀ n, burst_admitted (tokenBucketRateLimiter bucketCapacity refillRate)
            store ip T0 n = Nat.min n (Z.to_nat (tokens bucket))) ∧
    (∀ n, burst_admitted (tokenBucketRateLimiter bucketCapacity refillRate)
            store ip now n = Nat.min n (Z.to_nat refilled)) ∧
    0 ≤ refilled - tokens bucket ≤ add ∧
    refilled ≤ bucketCapacity ∧
    add ≤ ((now - T0) * refillRate) / 1000 + 1 ∧
    (lastRefill bucket = T0 → add = ((now - T0) * refillRate) / 1000).
Proof.
  intros Hcap Hrate Hclock store Hb add refilled lastRefill1.
  assert (clock_ok reqs) as Hclock0.
  { unfold clock_ok in *. rewrite fmap_app in Hclock.
    by apply StronglySorted_app_1_l in Hclock. }
  destruct (tb_reachable Hcap Hrate reqs ip bucket Hclock0 Hb)
    as (T0 & Hlast & Htok & Hlr & Hcarry).
  pose proof (clock_ok_snoc reqs ip now T0 Hclock Hlast) as Hnow.
  assert (0 ≤ (now - T0) * refillRate) as Hx by nia.
  assert (0 ≤ (T0 - lastRefill bucket) * refillRate) as Hy by nia.
  assert ((now - lastRefill bucket) * refillRate
          = (now - T0) * refillRate + (T0 - lastRefill bucket) * refillRate)
    as Hsplit by lia.
  assert (0 ≤ add ≤ (now - T0) * refillRate / 1000 + 1) as Hadd.
  { subst add. rewrite Hsplit.
    set (x := (now - T0) * refillRate) in *.
    set (y := (T0 - lastRefill bucket) * refillRate) in *.
    Z.div_mod_to_equations. lia. }
  split; [done|]. split; [apply tokensToAdd_floor|].
  split. { unfold refill. by rewrite tokensToAdd_floor. }
  split. { rewrite (tb_call _ _ _ _ Hb). fold add. fold refilled.
           by case_bool_decide. }
  exists T0. split; [done|]. split; [lia|].
  split.
  { intros n. rewrite (tb_burst_admitted _ _ _ _ _ Hb).
    - replace ((T0 - lastRefill bucket) * refillRate / 1000) with 0
        by (symmetry; apply Z.div_small; lia).
      rewrite Z.add_0_r, Z.min_r by lia. done.
    - apply Z.div_pos; lia.
    - replace ((T0 - lastRefill bucket) * refillRate / 1000) with 0
        by (symmetry; apply Z.div_small; lia).
      lia. }
  split.
  { intros n. apply (tb_burst_admitted _ _ _ _ _ Hb); fold add; lia. }
  split; [subst refilled; lia|]. split; [subst refilled; lia|].
  split; [lia|]. intros Heq. subst add. by rewrite Heq.
Qed.

End Facts.

(** C2.  The scenario with the constants of the source, for an address the
    store has not seen and whatever the other clients do in between: ten
    requests at one instant are handed on, the eleventh at that instant
    is answered 429 with [retryAfter = 1], and one second later exactly
    one request is handed on, the next one being answered 429 again. *)
Theorem token_bucket_scenario
    (store : gmap string Bucket) (reqs : list Request) (ip : string) (t0 : Z) :
  store !! ip = None →
  times_of ip reqs = replicate 11 t0 ++ [t0 + 1000; t0 + 1000] →
  responses_of ip reqs
    (run (tokenBucketRateLimiter bucketCapacity refillRate) store reqs).2
  = replicate 10 Next ++ [Status429 1; Next; Status429 1].
Proof.
  intros Hnew Htimes.
  destruct (run_per_client _ (tb_frame bucketCapacity refillRate)
              (tb_local bucketCapacity refillRate) reqs store store ip eq_refl)
    as [_ ->].
  rewrite Htimes.
  change (from ip (replicate 11 t0 ++ [t0 + 1000; t0 + 1000]))
    with ((ip, t0) :: from ip (replicate 10 t0)
            ++ [(ip, t0 + 1000); (ip, t0 + 1000)]).
  rewrite run_cons, tb_new by done. cbn [fst snd].
  rewrite run_app. cbn [fst snd].
  set (store1 := <[ip := _]> store).
  destruct (tb_burst bucketCapacity refillRate ip t0 10 store1
              {| tokens := bucketCapacity - 1; lastRefill := t0 |})
    as [Hrs Hst].
  { apply lookup_insert_eq. }
  { simpl. by rewrite Z.sub_diag. }
  { vm_compute. split; discriminate. }
  rewrite Hrs. cbn [tokens lastRefill] in Hst.
  set (store2 := (run _ store1 _).1) in *.
  rewrite run_cons, (tb_call _ _ _ _ _ _ Hst). cbn [fst snd tokens lastRefill].
  replace (t0 + 1000 - t0) with 1000 by lia.
  rewrite run_cons, (tb_call _ _ _ _ _ _ (lookup_insert_eq _ _ _)).
  cbn [fst snd tokens lastRefill run].
  replace (t0 + 1000 - (if bool_decide (0 < 1000 * refillRate / 1000)
                        then t0 + 1000 else t0)) with 0
    by (vm_compute (bool_decide _); lia).
  reflexivity.
Qed.

Lemma token_bucket_scenario_witness :
  responses_of "10.0.0.7" (from "10.0.0.7" (replicate 11 5 ++ [1005; 1005]))
    (run (tokenBucketRateLimiter bucketCapacity refillRate) ∅
         (from "10.0.0.7" (replicate 11 5 ++ [1005; 1005]))).2
  = replicate 10 Next ++ [Status429 1; Next; Status429 1].
Proof.
  apply (token_bucket_scenario ∅
           (from "10.0.0.7" (replicate 11 5 ++ [1005; 1005])) "10.0.0.7" 5).
  - reflexivity.
  - vm_compute. reflexivity.
Defined.

Lemma token_bucket_invariant_witness :
  0 ≤ 8 ≤ bucketCapacity ∧
  tokensToAdd refillRate {| tokens := 8; lastRefill := 0 |} 1000 = 1.
Proof.
  pose proof (token_bucket_invariant bucketCapacity refillRate
                (from "10.0.0.7" [0; 999]) "10.0.0.7"
                {| tokens := 8; lastRefill := 0 |} 1000) as H.
  cbv zeta in H.
  destruct H as (Hrange & Hadd & _).
  - vm_compute. discriminate.
  - vm_compute. discriminate.
  - unfold clock_ok. simpl. repeat constructor; lia.
  - vm_compute. reflexivity.
  - split; [exact Hrange | exact Hadd].
Defined.

(** The last part of C7 as the specification words it fails.  With the
    constants of the source a client spends its ten tokens at clock
    readings 0 and 999, so nothing more is admissible at 999; one
    millisecond later, at 1000, a request is handed on, although
    floor(0.001 * refillRate) is 0. *)
Lemma token_bucket_idle_counterexample :
  (run (tokenBucketRateLimiter bucketCapacity refillRate) ∅
       (from "10.0.0.7" (0 :: replicate 9 999))).2 = replicate 10 Next ∧
  burst_admitted (tokenBucketRateLimiter bucketCapacity refillRate)
    (run (tokenBucketRateLimiter bucketCapacity refillRate) ∅
         (from "10.0.0.7" (0 :: replicate 9 999))).1 "10.0.0.7" 999 3 = 0%nat ∧
  burst_admitted (tokenBucketRateLimiter bucketCapacity refillRate)
    (run (tokenBucketRateLimiter bucketCapacity refillRate) ∅
         (from "10.0.0.7" (0 :: replicate 9 999))).1 "10.0.0.7" 1000 3 = 1%nat ∧
  Math_floor (num (1000 - 999) / 1000 * num refillRate) = 0 ∧
  (run (tokenBucketRateLimiter bucketCapacity refillRate) ∅
       (from "10.0.0.7" (0 :: replicate 9 999 ++ [999; 1000]))).2
    = replicate 10 Next ++ [Status429 1; Next].
Proof. repeat split; vm_compute; reflexivity. Qed.

End TokenBucketFacts.

(** ** Leaky bucket *)

Module LeakyBucketFacts.
Import LeakyBucket.

Section Facts.
Variables (queueCapacity leakRate : Z).
Local Abbreviation limiter := (leakyBucketRateLimiter queueCapacity leakRate).

Lemma lb_frame store ip now ip' :
  ip' ≠ ip → (limiter store ip now).1 !! ip' = store !! ip'.
Proof.
  intros Hne. unfold leakyBucketRateLimiter.
  destruct (store !! ip) as [b|]; repeat case_bool_decide; simpl;
    by rewrite ?lookup_insert_ne.
Qed.

Lemma lb_local store1 store2 ip now :
  store1 !! ip = store2 !! ip →
  (limiter store1 ip now).2 = (limiter store2 ip now).2 ∧
  (limiter store1 ip now).1 !! ip = (limiter store2 ip now).1 !! ip.
Proof.
  intros Heq. unfold leakyBucketRateLimiter. rewrite <- Heq.
  destruct (store1 !! ip) as [b|]; repeat case_bool_decide; simpl;
    by rewrite ?lookup_insert_eq.
Qed.

(** [Math.floor(elapsed / leakRate)] as an integer quotient. *)
Lemma leaked_floor bucket now :
  leaked leakRate bucket now = (now - lastLeakTime bucket) / leakRate.
Proof. apply Math_floor_quot. Qed.

Lemma lb_new store ip now :
  store !! ip = None →
  limiter store ip now = (<[ip := {| lastLeakTime := now; queue := 1 |}]> store, Next).
Proof. intros Hs. unfold leakyBucketRateLimiter. by rewrite Hs. Qed.

(** One call for a known address, in terms of the drained bucket. *)
Lemma lb_call store ip now bucket :
  store !! ip = Some bucket →
  let bucket1 := leak leakRate bucket now in
  limiter store ip now =
  if bool_decide (queue bucket1 < queueCapacity) then
    (<[ip := {| lastLeakTime := lastLeakTime bucket1;
                queue := queue bucket1 + 1 |}]> store, Next)
  else (<[ip := bucket1]> store, Status429 (Math_ceil (num leakRate / 1000))).
Proof. intros Hs. unfold leakyBucketRateLimiter. by rewrite Hs. Qed.

Lemma leak_floor bucket now :
  leak leakRate bucket now =
  {| queue := Z.max 0 (queue bucket - (now - lastLeakTime bucket) / leakRate);
     lastLeakTime := if bool_decide (0 < (now - lastLeakTime bucket) / leakRate)
                     then now else lastLeakTime bucket |}.
Proof. unfold leak. by rewrite leaked_floor. Qed.

Section Reachable.
Hypothesis capacity_pos : 1 ≤ queueCapacity.
Hypothesis rate_pos : 0 < leakRate.

Lemma lb_settled_step store ip T now bucket :
  store !! ip = Some bucket →
  settled queueCapacity leakRate T bucket →
  T ≤ now →
  ∃ bucket1, (limiter store ip now).1 = <[ip := bucket1]> store ∧
             settled queueCapacity leakRate now bucket1.
Proof.
  intros Hs (Hq & Hcarry) Hle.
  rewrite (lb_call _ _ _ _ Hs), leak_floor. cbn [queue lastLeakTime].
  assert (0 ≤ (now - lastLeakTime bucket) / leakRate) as Hpos
    by (apply Z.div_pos; lia).
  assert ((now - lastLeakTime bucket) / leakRate = 0 →
          now - lastLeakTime bucket < leakRate) as Hsmall.
  { intros H0. apply Z.div_small_iff in H0; lia. }
  unfold settled.
  repeat case_bool_decide; cbn [fst queue lastLeakTime]; eexists;
    (split; [done|]); cbn [queue lastLeakTime]; lia.
Qed.

Lemma lb_settled_run ip ts : ∀ now,
  StronglySorted Z.le (ts ++ [now]) →
  ∃ bucket, (run limiter ∅ (from ip (ts ++ [now]))).1 !! ip = Some bucket ∧
            settled queueCapacity leakRate now bucket.
Proof.
  induction ts as [|t ts IH] using rev_ind; intros now Hsorted.
  - change (from ip ([] ++ [now])) with [(ip, now)].
    rewrite run_cons, lb_new by done. cbn [run fst].
    eexists. split; [apply lookup_insert_eq|].
    unfold settled. simpl. lia.
  - unfold from. rewrite fmap_app. fold (from ip (ts ++ [t])).
    change ((λ t0, (ip, t0)) <$> [now]) with [(ip, now)].
    rewrite run_snoc. cbn [fst].
    apply StronglySorted_app in Hsorted as (Hle & Hs & _).
    destruct (IH t Hs) as (bucket & Hb & Hset).
    destruct (lb_settled_step _ ip t now bucket Hb Hset) as (bucket1 & -> & Hset1).
    { apply Hle; set_solver. }
    exists bucket1. by rewrite lookup_insert_eq.
Qed.

(** Every bucket found in the store after a run is settled at the clock
    reading of its owner's last request. *)
Lemma lb_reachable reqs ip bucket :
  clock_ok reqs →
  (run limiter ∅ reqs).1 !! ip = Some bucket →
  ∃ T0, last (times_of ip reqs) = Some T0 ∧
        settled queueCapacity leakRate T0 bucket.
Proof.
  intros Hclock.
  destruct (run_per_client limiter lb_frame lb_local reqs ∅ ∅ ip eq_refl)
    as [-> _].
  pose proof (clock_ok_times_of ip reqs Hclock) as Hsorted.
  destruct (times_of ip reqs) as [|T0 ts _] using rev_ind; [done|].
  intros Hb. exists T0. split; [apply last_snoc|].
  destruct (lb_settled_run ip ts T0 Hsorted) as (bucket' & Hb' & Hset).
  congruence.
Qed.

End Reachable.

(** C8.  Take any run from an empty store with the clock never running
    backwards, capacity at least one and a positive leak interval, and
    the bucket it leaves for [ip].  The stored level lies in
    [[0, queueCapacity]].  When the client's next request comes
    [leakRate * k] milliseconds after its last one, [k] leaks are
    counted, the level the call sees after draining is
    [max 0 (queue - k)], [lastLeakTime] moves to [now] only when [k] is
    positive, and the call admits or rejects on that level. *)
Theorem leaky_bucket_invariant
    (reqs : list Request) (ip : string) (bucket : Bucket) :
  1 ≤ queueCapacity →
  0 < leakRate →
  clock_ok reqs →
  let store := (run (leakyBucketRateLimiter queueCapacity leakRate) ∅ reqs).1 in
  store !! ip = Some bucket →
  0 ≤ queue bucket ≤ queueCapacity ∧
  ∃ T0, last (times_of ip reqs) = Some T0 ∧
    ∀ k, 0 ≤ k →
      let now := T0 + leakRate * k in
      let level := Z.max 0 (queue bucket - k) in
      let lastLeakTime1 := if bool_decide (0 < k) then now
                           else lastLeakTime bucket in
      leaked leakRate bucket now = k ∧
      leak leakRate bucket now
        = {| lastLeakTime := lastLeakTime1; queue := level |} ∧
      leakyBucketRateLimiter queueCapacity leakRate store ip now =
        (if bool_decide (level < queueCapacity)
         then (<[ip := {| lastLeakTime := lastLeakTime1;
                          queue := level + 1 |}]> store, Next)
         else (<[ip := {| lastLeakTime := lastLeakTime1; queue := level |}]> store,
               Status429 (Math_ceil (num leakRate / 1000)))).
Proof.
  intros Hcap Hrate Hclock store Hb.
  destruct (lb_reachable Hcap Hrate reqs ip bucket Hclock Hb)
    as (T0 & Hlast & Hq & Hcarry).
  split; [done|]. exists T0. split; [done|].
  intros k Hk now level lastLeakTime1.
  assert ((now - lastLeakTime bucket) / leakRate = k) as Hleaked.
  { subst now.
    replace (T0 + leakRate * k - lastLeakTime bucket)
      with ((T0 - lastLeakTime bucket) + k * leakRate) by lia.
    rewrite Z.div_add by lia. rewrite Z.div_small by lia. lia. }
  assert (leak leakRate bucket now
          = {| lastLeakTime := lastLeakTime1; queue := level |}) as Hleak.
  { rewrite leak_floor, Hleaked. done. }
  split; [by rewrite leaked_floor|]. split; [done|].
  rewrite (lb_call _ _ _ _ Hb), Hleak. done.
Qed.

End Facts.

Lemma leaky_bucket_invariant_witness :
  0 ≤ 2 ≤ queueCapacity ∧
  leaked leakRate {| lastLeakTime := 0; queue := 2 |} (999 + leakRate * 1) = 1.
Proof.
  pose proof (leaky_bucket_invariant queueCapacity leakRate
                (from "10.0.0.7" [0; 999]) "10.0.0.7"
                {| lastLeakTime := 0; queue := 2 |}) as H.
  cbv zeta in H.
  destruct H as (Hrange & T0 & Hlast & Hnext).
  - vm_compute. discriminate.
  - reflexivity.
  - unfold clock_ok. simpl. repeat constructor; lia.
  - vm_compute. reflexivity.
  - vm_compute in Hlast. injection Hlast as <-.
    split; [exact Hrange|]. apply (Hnext 1). lia.
Defined.

End LeakyBucketFacts.

(** ** Sliding window counter *)

Module SlidingWindowCounterFacts.
Import SlidingWindowCounter.

Section Facts.
Variables (windowSize maxRequests : Z).
Local Abbreviation limiter :=
  (slidingWindowCounterRateLimiter windowSize maxRequests).

Lemma swc_frame store ip now ip' :
  ip' ≠ ip → (limiter store ip now).1 !! ip' = store !! ip'.
Proof.
  intros Hne. unfold slidingWindowCounterRateLimiter.
  destruct (store !! ip) as [e|]; [destruct (double_gt _ _)|]; simpl;
    by rewrite ?lookup_insert_ne.
Qed.

Lemma swc_local store1 store2 ip now :
  store1 !! ip = store2 !! ip →
  (limiter store1 ip now).2 = (limiter store2 ip now).2 ∧
  (limiter store1 ip now).1 !! ip = (limiter store2 ip now).1 !! ip.
Proof.
  intros Heq. unfold slidingWindowCounterRateLimiter. rewrite <- Heq.
  destruct (store1 !! ip) as [e|]; [destruct (double_gt _ _)|]; simpl;
    by rewrite ?lookup_insert_eq.
Qed.

Lemma windowStart_floor now :
  windowStart windowSize now = now / windowSize * windowSize.
Proof. unfold windowStart. by rewrite Math_floor_quot. Qed.

(** What a call stores for a known address. *)
Lemma swc_call store ip now entry :
  store !! ip = Some entry →
  (limiter store ip now).1 = <[ip := shift windowSize entry now]> store.
Proof.
  intros Hs. unfold slidingWindowCounterRateLimiter. rewrite Hs.
  by destruct (double_gt _ _).
Qed.

(** The half of the stored-state invariant that holds: after a call the
    stored current window is the one of [now]. *)
Lemma swc_current_bucket store ip now :
  ∃ entry, (limiter store ip now).1 !! ip = Some entry ∧
           timestamp (current entry) = windowStart windowSize now.
Proof.
  destruct (store !! ip) as [entry0|] eqn:Hs.
  - rewrite (swc_call _ _ _ _ Hs), lookup_insert_eq. eexists. split; [done|].
    unfold shift. case_bool_decide as Hts; cbn [current timestamp]; [done|].
    destruct (decide (timestamp (current entry0) = windowStart windowSize now));
      [done|]. by destruct Hts.
  - unfold slidingWindowCounterRateLimiter. rewrite Hs. cbn [fst].
    rewrite lookup_insert_eq. by eexists.
Qed.



End Facts.

(** C4 fails on an idle gap.  With the constants of the source, a client
    calls at clock readings 0 and 120000: the second call finds the stored
    current window 0 different from its own window 120000 and copies it to
    [previous], so [previous] is the window 0 with count 1 and not the
    window 60000 just before the current one, in which no request fell. *)
Theorem sliding_counter_stale_previous :
  (run (slidingWindowCounterRateLimiter windowSize maxRequests) ∅
       (from "10.0.0.7" [0; 120000])).1 !! "10.0.0.7"
  = Some {| current := {| timestamp := 120000; count := 1 |};
            previous := {| timestamp := 0; count := 1 |} |} ∧
  windowStart windowSize 120000 = 120000 ∧
  windowStart windowSize 120000 - windowSize = 60000.
Proof. repeat split; vm_compute; reflexivity. Qed.



End SlidingWindowCounterFacts.

(** ** Delaying throttle *)

Module ThrottleFacts.
Import Throttle.

Section Facts.
Variables (MAX_REQUESTS TIME_WINDOW : Z).

(** No call removes an address from the map, so the entry the timer
    callback reads is there when the timer fires. *)
Lemma throttle_keeps_entries IPMap ip currentTime ip' :
  is_Some (IPMap !! ip') ∨ ip' = ip →
  is_Some ((throttleMiddleware MAX_REQUESTS TIME_WINDOW IPMap ip currentTime).1 !! ip').
Proof.
  intros Hin. unfold throttleMiddleware.
  destruct (decide (ip' = ip)) as [->|Hne].
  - case_bool_decide; cbn [fst]; rewrite lookup_insert_eq; by eexists.
  - destruct Hin as [Hin|]; [|done].
    case_bool_decide; cbn [fst]; rewrite !lookup_insert_ne by done;
      destruct (IPMap !! ip); by rewrite ?lookup_insert_ne.
Qed.

Lemma callback_keeps_entries IPMap ip now ip' IPMap1 r :
  timerCallback TIME_WINDOW IPMap ip now = Some (IPMap1, r) →
  is_Some (IPMap !! ip') → is_Some (IPMap1 !! ip').
Proof.
  unfold timerCallback. destruct (IPMap !! ip) as [stored|]; [|done].
  intros [= <- <-] Hin. destruct (decide (ip' = ip)) as [->|Hne].
  - rewrite lookup_insert_eq. by eexists.
  - by rewrite lookup_insert_ne.
Qed.

(** Over a whole run of the event loop no callback throws and no request
    is answered 429. *)
Lemma serve_never_rejects events : ∀ (IPMap : gmap string (list Z)) seen,
  (∀ ip, ip ∈ seen → is_Some (IPMap !! ip)) →
  timers_follow_arrivals seen events →
  ∃ IPMap1 rs, serve MAX_REQUESTS TIME_WINDOW IPMap events = Some (IPMap1, rs) ∧
               Forall (λ r, rejected r = false) rs.
Proof.
  induction events as [|[ip t|ip t] rest IH]; intros IPMap seen Hseen Hev.
  - by exists IPMap, [].
  - cbn [serve].
    destruct (throttleMiddleware MAX_REQUESTS TIME_WINDOW IPMap ip t)
      as [IPMap1 r] eqn:E.
    destruct (IH IPMap1 ({[ip]} ∪ seen)) as (IPMap2 & rs & -> & Hrs).
    + intros ip' Hin.
      pose proof (throttle_keeps_entries IPMap ip t ip') as Hk.
      rewrite E in Hk. apply Hk.
      apply elem_of_union in Hin as [Hin|Hin]; [right; set_solver|left; auto].
    + exact Hev.
    + exists IPMap2, (r :: rs). split; [done|]. constructor; [|done].
      assert (r = (throttleMiddleware MAX_REQUESTS TIME_WINDOW IPMap ip t).2)
        as -> by (by rewrite E).
      unfold throttleMiddleware. by case_bool_decide.
  - cbn [serve]. destruct Hev as [Hin Hev].
    destruct (Hseen ip Hin) as [stored Hs].
    unfold timerCallback at 1. rewrite Hs.
    destruct (IH (<[ip := recent TIME_WINDOW t stored ++ [t]]> IPMap) seen)
      as (IPMap2 & rs & -> & Hrs); [|done|].
    + intros ip' Hin'. destruct (decide (ip' = ip)) as [->|Hne].
      * rewrite lookup_insert_eq. by eexists.
      * rewrite lookup_insert_ne by done. auto.
    + exists IPMap2, (Next :: rs). split; [done|]. by constructor.
Qed.

(** C9.  A call of the throttle never answers 429.  With [timestamps] the
    stored readings less than [TIME_WINDOW] old: below the limit the
    request is recorded and handed on; at the limit nothing is recorded
    and a timer is armed for
    [TIME_WINDOW - (currentTime - timestamps[0])].  When a timer fires,
    at clock reading [now] and on whatever the map holds for the address
    by then, the callback prunes again at [now], records [now] and hands
    the request on.  So in a run of the event loop from an empty map, in
    which timers fire only for addresses that have sent a request, no
    callback throws and no response is a 429. *)
Theorem throttle_delays_never_rejects
    (IPMap : gmap string (list Z)) (ip : string) (currentTime : Z) :
  1 ≤ MAX_REQUESTS →
  let timestamps :=
    filter (λ ts, currentTime - ts < TIME_WINDOW) (default [] (IPMap !! ip)) in
  let result := throttleMiddleware MAX_REQUESTS TIME_WINDOW IPMap ip currentTime in
  (∀ retryAfter, result.2 ≠ Status429 retryAfter) ∧
  (Z.of_nat (length timestamps) < MAX_REQUESTS →
   result = (<[ip := timestamps ++ [currentTime]]> IPMap, Next)) ∧
  (MAX_REQUESTS ≤ Z.of_nat (length timestamps) →
   ∃ oldest, head timestamps = Some oldest ∧
     result = (<[ip := timestamps]> IPMap,
               Timer (TIME_WINDOW - (currentTime - oldest)))) ∧
  is_Some (result.1 !! ip) ∧
  (∀ (IPMap1 : gmap string (list Z)) (stored : list Z) (now : Z),
     IPMap1 !! ip = Some stored →
     timerCallback TIME_WINDOW IPMap1 ip now =
     Some (<[ip := filter (λ ts, now - ts < TIME_WINDOW) stored ++ [now]]> IPMap1,
           Next)) ∧
  (∀ events, timers_follow_arrivals ∅ events →
     ∃ IPMap1 rs, serve MAX_REQUESTS TIME_WINDOW ∅ events = Some (IPMap1, rs) ∧
                  Forall (λ r, rejected r = false) rs).
Proof.
  intros Hmax timestamps result.
  assert (result =
          if bool_decide (Z.of_nat (length timestamps) < MAX_REQUESTS)
          then (<[ip := timestamps ++ [currentTime]]> IPMap, Next)
          else (<[ip := timestamps]> IPMap,
                Timer (TIME_WINDOW
                       - (currentTime - default currentTime (head timestamps)))))
    as Hres.
  { subst result timestamps. unfold throttleMiddleware, recent.
    destruct (IPMap !! ip) as [stored|] eqn:E.
    - rewrite E. cbn [from_option id].
      case_bool_decide; by rewrite ?insert_insert_eq.
    - rewrite lookup_insert_eq. cbn [from_option id].
      case_bool_decide; by rewrite !insert_insert_eq. }
  split. { intros retryAfter. rewrite Hres. by case_bool_decide. }
  split. { intros Hlt. rewrite Hres. by rewrite bool_decide_eq_true_2. }
  split.
  { intros Hge. rewrite Hres. rewrite bool_decide_eq_false_2 by lia.
    destruct timestamps as [|oldest rest]; [simpl in Hge; lia|].
    by exists oldest. }
  split. { apply throttle_keeps_entries. by right. }
  split.
  { intros IPMap1 stored now Hs. unfold timerCallback, recent. by rewrite Hs. }
  intros events Hev. apply (serve_never_rejects events ∅ ∅); [set_solver|done].
Qed.

End Facts.

Lemma throttle_delays_never_rejects_witness :
  throttleMiddleware MAX_REQUESTS TIME_WINDOW
    {[ "10.0.0.7" := [100; 200; 300; 400; 500] ]} "10.0.0.7" 600
  = ({[ "10.0.0.7" := [100; 200; 300; 400; 500] ]}, Timer 500).
Proof.
  pose proof (throttle_delays_never_rejects MAX_REQUESTS TIME_WINDOW
                {[ "10.0.0.7" := [100; 200; 300; 400; 500] ]} "10.0.0.7" 600) as H.
  cbv zeta in H.
  destruct H as (_ & _ & Hlimit & _).
  - vm_compute. discriminate.
  - destruct Hlimit as (oldest & Hhead & ->).
    + vm_compute. discriminate.
    + vm_compute in Hhead. injection Hhead as <-. reflexivity.
Defined.

End ThrottleFacts.

(** ** What a rejected request leaves behind *)

Module RejectionFacts.

Section Facts.
Variables (windowTime fwMaxRequests : Z).
Variables (windowMs swlMaxRequests : Z).
Variables (windowSize swcMaxRequests : Z).
Variables (bucketCapacity refillRate : Z).
Variables (queueCapacity leakRate : Z).

Local Abbreviation fixedWindow :=
  (FixedWindow.fixedWindowRateLimiter windowTime fwMaxRequests).
Local Abbreviation slidingLog :=
  (SlidingWindowLog.slidingWindowRateLimiter windowMs swlMaxRequests).
Local Abbreviation slidingCounter :=
  (SlidingWindowCounter.slidingWindowCounterRateLimiter windowSize swcMaxRequests).
Local Abbreviation tokenBucket :=
  (TokenBucket.tokenBucketRateLimiter bucketCapacity refillRate).
Local Abbreviation leakyBucket :=
  (LeakyBucket.leakyBucketRateLimiter queueCapacity leakRate).

Lemma fw_reject_unchanged store ip now :
  rejected (fixedWindow store ip now).2 → (fixedWindow store ip now).1 = store.
Proof.
  unfold FixedWindow.fixedWindowRateLimiter.
  destruct (store !! ip) as [entry|]; repeat case_bool_decide; simpl; done.
Qed.

Lemma tb_reject_unchanged store ip now T bucket :
  1 ≤ bucketCapacity → 0 ≤ refillRate →
  store !! ip = Some bucket →
  TokenBucket.settled bucketCapacity refillRate T bucket →
  T ≤ now →
  rejected (tokenBucket store ip now).2 →
  (tokenBucket store ip now).1 = store ∧
  TokenBucket.tokensToAdd refillRate bucket now = 0 ∧
  TokenBucket.refill bucketCapacity refillRate bucket now = bucket.
Proof.
  intros Hcap Hrate Hs (Htok & Hlr & Hcarry) Hle.
  assert (0 ≤ (now - TokenBucket.lastRefill bucket) * refillRate / 1000) as Hadd
    by (apply Z.div_pos; nia).
  unfold TokenBucket.tokenBucketRateLimiter. rewrite Hs.
  unfold TokenBucket.refill. rewrite TokenBucketFacts.tokensToAdd_floor.
  unfold Math_min. cbn [TokenBucket.tokens TokenBucket.lastRefill].
  case_bool_decide as Hpos; [done|]. intros _. cbn [fst].
  assert ((now - TokenBucket.lastRefill bucket) * refillRate / 1000 = 0) as H0 by lia.
  rewrite H0, Z.add_0_r, Z.min_r, bool_decide_eq_false_2 by lia.
  destruct bucket as [tok lr]. cbn [TokenBucket.tokens TokenBucket.lastRefill].
  split; [by apply insert_id|done].
Qed.

Lemma lb_reject_unchanged store ip now T bucket :
  1 ≤ queueCapacity → 0 < leakRate →
  store !! ip = Some bucket →
  LeakyBucket.settled queueCapacity leakRate T bucket →
  T ≤ now →
  rejected (leakyBucket store ip now).2 →
  (leakyBucket store ip now).1 = store ∧
  LeakyBucket.leaked leakRate bucket now = 0 ∧
  LeakyBucket.leak leakRate bucket now = bucket.
Proof.
  intros Hcap Hrate Hs (Hq & Hcarry) Hle.
  assert (0 ≤ (now - LeakyBucket.lastLeakTime bucket) / leakRate) as Hleaked
    by (apply Z.div_pos; lia).
  rewrite (LeakyBucketFacts.lb_call _ _ _ _ _ _ Hs).
  rewrite LeakyBucketFacts.leak_floor, LeakyBucketFacts.leaked_floor.
  cbn [LeakyBucket.queue LeakyBucket.lastLeakTime].
  case_bool_decide as Hroom; [done|]. intros _. cbn [fst].
  assert ((now - LeakyBucket.lastLeakTime bucket) / leakRate = 0) as H0 by lia.
  rewrite H0, Z.sub_0_r, Z.max_r, bool_decide_eq_false_2 by lia.
  destruct bucket as [ll q]. cbn [LeakyBucket.queue LeakyBucket.lastLeakTime].
  split; [by apply insert_id|done].
Qed.

Lemma swl_reject_changes store ip now :
  0 ≤ windowMs →
  rejected (slidingLog store ip now).2 →
  (slidingLog store ip now).1 !! ip ≠ store !! ip.
Proof.
  intros Hw. unfold SlidingWindowLog.slidingWindowRateLimiter.
  destruct (store !! ip) as [stored|] eqn:Hs; [|done].
  case_bool_decide; [|done]. intros _. cbn [fst].
  rewrite lookup_insert_eq. intros [= Heq].
  set (kept := SlidingWindowLog.prune windowMs now stored) in *.
  assert (kept = kept ++ [now]) as Habs.
  { unfold kept at 1. rewrite <- Heq. unfold SlidingWindowLog.prune.
    rewrite filter_app. f_equal.
    - unfold kept, SlidingWindowLog.prune. by apply list_filter_filter_l.
    - rewrite filter_cons_True by lia. done. }
  apply (f_equal length) in Habs. rewrite length_app in Habs. simpl in Habs. lia.
Qed.

Lemma swc_reject_changes store ip now :
  rejected (slidingCounter store ip now).2 →
  (slidingCounter store ip now).1 !! ip ≠ store !! ip.
Proof.
  unfold SlidingWindowCounter.slidingWindowCounterRateLimiter.
  destruct (store !! ip) as [[[ts c] prev]|] eqn:Hs; [|done].
  destruct (double_gt _ _); [|done]. intros _. cbn [fst].
  rewrite lookup_insert_eq. unfold SlidingWindowCounter.shift.
  cbn [SlidingWindowCounter.current SlidingWindowCounter.timestamp
       SlidingWindowCounter.count SlidingWindowCounter.previous].
  case_bool_decide as Hts; intros [=]; [congruence | lia].
Qed.

(** C10.  [reqs] is the history of a run from empty stores and
    [(ip, now)] the next request, the clock never running backwards.
    When the fixed window, the token bucket or the leaky bucket answers
    it with 429 the store is left as it was, and for the two buckets no
    token was added and no leak counted.  When the sliding window log or
    the sliding window counter answers 429 the entry of [ip] has
    changed. *)
Theorem rejection_atomicity (reqs : list Request) (ip : string) (now : Z) :
  1 ≤ bucketCapacity → 0 ≤ refillRate →
  1 ≤ queueCapacity → 0 < leakRate →
  0 ≤ windowMs →
  clock_ok (reqs ++ [(ip, now)]) →
  (∀ store,
     rejected (FixedWindow.fixedWindowRateLimiter windowTime fwMaxRequests
                 store ip now).2 →
     (FixedWindow.fixedWindowRateLimiter windowTime fwMaxRequests store ip now).1
     = store) ∧
  (let store := (run tokenBucket ∅ reqs).1 in
   rejected (tokenBucket store ip now).2 →
   (tokenBucket store ip now).1 = store ∧
   ∃ bucket, store !! ip = Some bucket ∧
     TokenBucket.tokensToAdd refillRate bucket now = 0 ∧
     TokenBucket.refill bucketCapacity refillRate bucket now = bucket) ∧
  (let store := (run leakyBucket ∅ reqs).1 in
   rejected (leakyBucket store ip now).2 →
   (leakyBucket store ip now).1 = store ∧
   ∃ bucket, store !! ip = Some bucket ∧
     LeakyBucket.leaked leakRate bucket now = 0 ∧
     LeakyBucket.leak leakRate bucket now = bucket) ∧
  (∀ store, rejected (slidingLog store ip now).2 →
            (slidingLog store ip now).1 !! ip ≠ store !! ip) ∧
  (∀ store, rejected (slidingCounter store ip now).2 →
            (slidingCounter store ip now).1 !! ip ≠ store !! ip).
Proof.
  intros Hcap Hrate Hqcap Hleak Hw Hclock.
  assert (clock_ok reqs) as Hclock0.
  { unfold clock_ok in *. rewrite fmap_app in Hclock.
    by apply StronglySorted_app_1_l in Hclock. }
  split; [intros store; apply fw_reject_unchanged|].
  split.
  { intros store Hrej.
    destruct (store !! ip) as [bucket|] eqn:Hs.
    - destruct (TokenBucketFacts.tb_reachable _ _ Hcap Hrate reqs ip bucket
                  Hclock0 Hs) as (T0 & Hlast & Hset).
      pose proof (clock_ok_snoc reqs ip now T0 Hclock Hlast) as HT.
      destruct (tb_reject_unchanged store ip now T0 bucket Hcap Hrate Hs Hset HT Hrej)
        as (Hst & Hadd & Href).
      split; [done|]. by exists bucket.
    - rewrite TokenBucketFacts.tb_new in Hrej by done. done. }
  split.
  { intros store Hrej.
    destruct (store !! ip) as [bucket|] eqn:Hs.
    - destruct (LeakyBucketFacts.lb_reachable _ _ Hqcap Hleak reqs ip bucket
                  Hclock0 Hs) as (T0 & Hlast & Hset).
      pose proof (clock_ok_snoc reqs ip now T0 Hclock Hlast) as HT.
      destruct (lb_reject_unchanged store ip now T0 bucket Hqcap Hleak Hs Hset HT Hrej)
        as (Hst & Hadd & Href).
      split; [done|]. by exists bucket.
    - rewrite LeakyBucketFacts.lb_new in Hrej by done. done. }
  split; [intros store; by apply swl_reject_changes|].
  intros store. apply swc_reject_changes.
Qed.

End Facts.

Lemma rejection_atomicity_witness :
  TokenBucket.tokenBucketRateLimiter TokenBucket.bucketCapacity
    TokenBucket.refillRate
    (run (TokenBucket.tokenBucketRateLimiter TokenBucket.bucketCapacity
            TokenBucket.refillRate) ∅ (from "10.0.0.7" (replicate 10 0))).1
    "10.0.0.7" 999
  = ((run (TokenBucket.tokenBucketRateLimiter TokenBucket.bucketCapacity
             TokenBucket.refillRate) ∅ (from "10.0.0.7" (replicate 10 0))).1,
     Status429 1).
Proof.
  pose proof (rejection_atomicity
                FixedWindow.windowTime FixedWindow.maxRequests
                SlidingWindowLog.windowMs SlidingWindowLog.maxRequests
                SlidingWindowCounter.windowSize SlidingWindowCounter.maxRequests
                TokenBucket.bucketCapacity TokenBucket.refillRate
                LeakyBucket.queueCapacity LeakyBucket.leakRate
                (from "10.0.0.7" (replicate 10 0)) "10.0.0.7" 999) as H.
  cbv zeta in H.
  destruct H as (_ & Htb & _).
  - vm_compute. discriminate.
  - vm_compute. discriminate.
  - vm_compute. discriminate.
  - reflexivity.
  - vm_compute. discriminate.
  - unfold clock_ok. simpl. repeat constructor; lia.
  - destruct Htb as (Hst & _); [by vm_compute|].
    apply injective_projections; [exact Hst|]. vm_compute. reflexivity.
Defined.

End RejectionFacts.

(** * Further properties of the limiters *)

(** ** One client's run, request by request *)

Section SingleClient.
Context {St : Type}.
Variable limiter : gmap string St → string → Z → gmap string St * Response.

Lemma run_from_snoc store ip ts now :
  run limiter store (from ip (ts ++ [now])) =
  ((limiter (run limiter store (from ip ts)).1 ip now).1,
   (run limiter store (from ip ts)).2
     ++ [(limiter (run limiter store (from ip ts)).1 ip now).2]).
Proof.
  unfold from. rewrite fmap_app. apply run_snoc.
Qed.

Lemma run_from_length store ip ts :
  length (run limiter store (from ip ts)).2 = length ts.
Proof. rewrite run_length. unfold from. by rewrite length_fmap. Qed.

(** Counting the admitted requests whose clock reading satisfies [P],
    one request more. *)
Lemma count_snoc (P : Z → Prop) `{!∀ t, Decision (P t)} ts rs now r :
  length rs = length ts →
  length (filter (λ p : Z * Response, admitted p.2 ∧ P p.1)
            (zip (ts ++ [now]) (rs ++ [r])))
  = (length (filter (λ p : Z * Response, admitted p.2 ∧ P p.1) (zip ts rs))
     + if decide (admitted r ∧ P now) then 1 else 0)%nat.
Proof.
  intros Hlen. rewrite zip_with_app by done.
  rewrite filter_app, length_app. f_equal.
  cbn [zip zip_with]. rewrite filter_cons, filter_nil. cbn [fst snd].
  by destruct (decide (admitted r ∧ P now)).
Qed.

Lemma count_none (P : Z → Prop) `{!∀ t, Decision (P t)} ts : ∀ rs,
  Forall (λ t, ¬ P t) ts →
  length (filter (λ p : Z * Response, admitted p.2 ∧ P p.1) (zip ts rs)) = 0%nat.
Proof.
  induction ts as [|t ts IH]; intros [|r rs] Hall; try done.
  apply Forall_cons in Hall as [Ht Hall]. cbn [zip zip_with].
  rewrite filter_cons_False by (cbn; tauto). by apply IH.
Qed.

Lemma count_ext_in (P Q : Z → Prop)
    `{!∀ t, Decision (P t), !∀ t, Decision (Q t)} ts : ∀ rs,
  Forall (λ t, P t ↔ Q t) ts →
  length (filter (λ p : Z * Response, admitted p.2 ∧ P p.1) (zip ts rs))
  = length (filter (λ p : Z * Response, admitted p.2 ∧ Q p.1) (zip ts rs)).
Proof.
  induction ts as [|t ts IH]; intros [|r rs] Hall; try done.
  apply Forall_cons in Hall as [Ht Hall]. cbn [zip zip_with].
  rewrite !filter_cons. cbn [fst snd]. specialize (IH rs Hall).
  destruct (decide (admitted r ∧ P t)) as [HP|HP].
  - rewrite decide_True by tauto. cbn [length]. by rewrite IH.
  - rewrite decide_False by tauto. done.
Qed.

Lemma sorted_snoc_le ts now :
  StronglySorted Z.le (ts ++ [now]) → Forall (λ t, t ≤ now) ts.
Proof.
  intros Hs. apply StronglySorted_app in Hs as (Hle & _ & _).
  apply Forall_forall. intros t Ht. apply Hle; [done|set_solver].
Qed.

End SingleClient.

(** ** Token bucket: the rate it enforces *)

Module TokenBucketRate.
Import TokenBucket TokenBucketFacts.

Section Facts.
Variables (bucketCapacity refillRate : Z).
Local Abbreviation limiter := (tokenBucketRateLimiter bucketCapacity refillRate).
Hypothesis capacity_pos : 1 ≤ bucketCapacity.
Hypothesis rate_nonneg : 0 ≤ refillRate.

(** One call, with [C] the admitted requests counted so far from clock
    reading [a] on: the count and the tokens left stay within the
    capacity plus what has been refilled since [a]. *)
Lemma tb_interval_step store ip T now bucket (C a : Z) :
  store !! ip = Some bucket →
  settled bucketCapacity refillRate T bucket →
  T ≤ now →
  (T < a → C = 0) →
  1000 * (C + tokens bucket - bucketCapacity)
    ≤ Z.max 0 ((lastRefill bucket - a) * refillRate + 999) →
  ∃ bucket1,
    (limiter store ip now).1 !! ip = Some bucket1 ∧
    settled bucketCapacity refillRate now bucket1 ∧
    let C1 := C + (if decide (admitted (limiter store ip now).2 ∧ a ≤ now)
                   then 1 else 0) in
    (now < a → C1 = 0) ∧
    1000 * (C1 + tokens bucket1 - bucketCapacity)
      ≤ Z.max 0 ((lastRefill bucket1 - a) * refillRate + 999).
Proof.
  intros Hs (Htok & Hlr & Hcarry) Hle Hbefore HJ.
  rewrite (tb_call _ _ _ _ _ _ Hs). cbn [fst snd].
  rewrite lookup_insert_eq. eexists. split; [done|].
  assert (0 ≤ (now - lastRefill bucket) * refillRate) as Hx by nia.
  assert (0 ≤ (T - lastRefill bucket) * refillRate) as Hy by nia.
  pose proof (Z.div_mod ((now - lastRefill bucket) * refillRate) 1000 ltac:(lia))
    as Hdm.
  pose proof (Z.mod_pos_bound ((now - lastRefill bucket) * refillRate) 1000
                ltac:(lia)) as Hmod.
  set (add := (now - lastRefill bucket) * refillRate / 1000) in *.
  assert (0 ≤ add) as Hadd by (apply Z.div_pos; lia).
  unfold settled. cbn [tokens lastRefill].
  destruct (decide (now < a)) as [Hna|Hna].
  - (* before the interval nothing is counted *)
    assert (C = 0) as -> by lia.
    repeat case_bool_decide; cbn [admitted];
      (rewrite decide_False by (intros [_ ?]; lia));
      repeat split; try lia; try nia.
  - repeat case_bool_decide; cbn [admitted];
      first [ rewrite decide_True by (split; [done|lia])
            | rewrite decide_False by (intros [[] _]) ];
      repeat split; try lia; try nia.
Qed.

Lemma tb_interval_inv ip a ts : ∀ now,
  StronglySorted Z.le (ts ++ [now]) →
  ∃ bucket,
    (run limiter ∅ (from ip (ts ++ [now]))).1 !! ip = Some bucket ∧
    settled bucketCapacity refillRate now bucket ∧
    let C := Z.of_nat (length (filter (λ p : Z * Response, admitted p.2 ∧ a ≤ p.1)
                                 (zip (ts ++ [now])
                                      (run limiter ∅ (from ip (ts ++ [now]))).2))) in
    (now < a → C = 0) ∧
    1000 * (C + tokens bucket - bucketCapacity)
      ≤ Z.max 0 ((lastRefill bucket - a) * refillRate + 999).
Proof.
  induction ts as [|t ts IH] using rev_ind; intros now Hsorted.
  - change (from ip ([] ++ [now])) with [(ip, now)].
    rewrite run_cons, tb_new by done. cbn [run fst snd app zip zip_with].
    eexists. split; [apply lookup_insert_eq|].
    split; [unfold settled; simpl; lia|].
    rewrite filter_cons. cbn [fst snd admitted tokens lastRefill].
    destruct (decide _) as [[_ ?]|Hn]; rewrite filter_nil; cbn [length].
    + split; lia.
    + assert (¬ a ≤ now) by (intros ?; apply Hn; by split). split; lia.
  - pose proof (sorted_snoc_le _ _ Hsorted) as Hall.
    apply StronglySorted_app_1_l in Hsorted as Hs.
    destruct (IH t Hs) as (bucket & Hb & Hset & Hbefore & HJ).
    assert (t ≤ now) as Hle.
    { rewrite Forall_forall in Hall. apply Hall. set_solver. }
    rewrite run_from_snoc. cbn [fst snd].
    rewrite count_snoc by (by rewrite run_from_length).
    destruct (tb_interval_step _ ip t now bucket _ a Hb Hset Hle Hbefore HJ)
      as (bucket1 & Hb1 & Hset1 & Hbefore1 & HJ1).
    exists bucket1. split; [done|]. split; [done|].
    rewrite Nat2Z.inj_add.
    destruct (decide (admitted _ ∧ a ≤ now)); simpl in *; split; lia.
Qed.

Lemma tb_interval_single ip a b ts :
  a ≤ b →
  StronglySorted Z.le ts →
  Z.of_nat (length (filter (λ p : Z * Response, admitted p.2 ∧ a ≤ p.1 ≤ b)
                      (zip ts (run limiter ∅ (from ip ts)).2)))
  ≤ bucketCapacity + (b - a) * refillRate / 1000 + 1.
Proof.
  intros Hab.
  induction ts as [|now ts IH] using rev_ind; intros Hsorted.
  - simpl. assert (0 ≤ (b - a) * refillRate / 1000) by (apply Z.div_pos; nia).
    lia.
  - destruct (decide (now ≤ b)) as [Hin|Hout].
    + pose proof (count_ext_in (λ t, a ≤ t ≤ b) (λ t, a ≤ t) (ts ++ [now])
                    (run limiter ∅ (from ip (ts ++ [now]))).2) as Hext.
      cbv beta in Hext. rewrite Hext.
      * destruct (tb_interval_inv ip a ts now Hsorted)
          as (bucket & _ & (Htok & Hlr & _) & _ & HJ).
        cbv zeta in HJ.
        set (C := Z.of_nat _) in *.
        assert ((lastRefill bucket - a) * refillRate ≤ (b - a) * refillRate)
          by nia.
        assert (0 ≤ (b - a) * refillRate) by nia.
        Z.div_mod_to_equations. lia.
      * pose proof (sorted_snoc_le _ _ Hsorted) as Hall.
        apply Forall_app. split.
        -- eapply Forall_impl; [exact Hall|]. intros t Ht. simpl in Ht. lia.
        -- constructor; [lia|constructor].
    + rewrite run_from_snoc. cbn [snd].
      pose proof (count_snoc (λ t, a ≤ t ≤ b) ts
                    (run limiter ∅ (from ip ts)).2 now
                    (limiter (run limiter ∅ (from ip ts)).1 ip now).2
                    (run_from_length _ _ _ _)) as Hsnoc.
      cbv beta in Hsnoc. rewrite Hsnoc.
      rewrite decide_False by (intros [_ ?]; lia).
      rewrite Nat.add_0_r. apply IH.
      by apply StronglySorted_app_1_l in Hsorted.
Qed.

(** X1.  In a run of the server from an empty store, the clock never running
    backwards, capacity at least one and a non-negative rate: among the
    requests of one client with a clock reading in [[a, b]] at most
    [bucketCapacity + floor((b - a) * refillRate / 1000) + 1] are handed
    on. *)
Theorem token_bucket_rate_bound (reqs : list Request) (ip : string) (a b : Z) :
  clock_ok reqs →
  a ≤ b →
  Z.of_nat (admitted_between ip a b reqs
              (run (tokenBucketRateLimiter bucketCapacity refillRate) ∅ reqs).2)
  ≤ bucketCapacity + (b - a) * refillRate / 1000 + 1.
Proof.
  intros Hclock Hab.
  rewrite admitted_between_per_client by apply run_length.
  destruct (run_per_client limiter (tb_frame _ _) (tb_local _ _) reqs ∅ ∅ ip
              eq_refl) as [_ ->].
  apply tb_interval_single; [done|]. by apply clock_ok_times_of.
Qed.

End Facts.

Lemma token_bucket_rate_bound_witness :
  Z.of_nat (admitted_between "10.0.0.7" 0 1000
              (from "10.0.0.7" (replicate 12 0 ++ [1000; 1000]))
              (run (tokenBucketRateLimiter bucketCapacity refillRate) ∅
                 (from "10.0.0.7" (replicate 12 0 ++ [1000; 1000]))).2)
  ≤ bucketCapacity + (1000 - 0) * refillRate / 1000 + 1.
Proof.
  apply (token_bucket_rate_bound bucketCapacity refillRate).
  - vm_compute. discriminate.
  - vm_compute. discriminate.
  - unfold clock_ok. simpl. repeat constructor; lia.
  - lia.
Defined.

End TokenBucketRate.

(** ** Leaky bucket: the rate it enforces *)

Module LeakyBucketRate.
Import LeakyBucket LeakyBucketFacts.

Section Facts.
Variables (queueCapacity leakRate : Z).
Local Abbreviation limiter := (leakyBucketRateLimiter queueCapacity leakRate).
Hypothesis capacity_pos : 1 ≤ queueCapacity.
Hypothesis rate_pos : 0 < leakRate.

(** One call, with [C] the admitted requests counted so far from clock
    reading [a] on: the count exceeds the queue level by no more than the
    leaks since [a]. *)
Lemma lb_interval_step store ip T now bucket (C a : Z) :
  store !! ip = Some bucket →
  settled queueCapacity leakRate T bucket →
  T ≤ now →
  (T < a → C = 0) →
  leakRate * (C - queue bucket)
    ≤ Z.max 0 (lastLeakTime bucket - a + leakRate - 1) →
  ∃ bucket1,
    (limiter store ip now).1 !! ip = Some bucket1 ∧
    settled queueCapacity leakRate now bucket1 ∧
    let C1 := C + (if decide (admitted (limiter store ip now).2 ∧ a ≤ now)
                   then 1 else 0) in
    (now < a → C1 = 0) ∧
    leakRate * (C1 - queue bucket1)
      ≤ Z.max 0 (lastLeakTime bucket1 - a + leakRate - 1).
Proof.
  intros Hs (Hq & Hcarry) Hle Hbefore HJ.
  rewrite (lb_call _ _ _ _ _ _ Hs), leak_floor.
  cbn [queue lastLeakTime].
  pose proof (Z.div_mod (now - lastLeakTime bucket) leakRate ltac:(lia)) as Hdm.
  pose proof (Z.mod_pos_bound (now - lastLeakTime bucket) leakRate rate_pos)
    as Hmod.
  set (leaked := (now - lastLeakTime bucket) / leakRate) in *.
  assert (0 ≤ leaked) as Hleaked by (apply Z.div_pos; lia).
  unfold settled.
  destruct (decide (now < a)) as [Hna|Hna].
  - assert (C = 0) as -> by lia.
    repeat case_bool_decide; cbn [fst snd admitted];
      rewrite lookup_insert_eq;
      (rewrite decide_False by (intros [_ ?]; lia));
      eexists; (split; [done|]); cbn [queue lastLeakTime];
      repeat split; try lia; try nia.
  - repeat case_bool_decide; cbn [fst snd admitted];
      rewrite lookup_insert_eq;
      first [ rewrite decide_True by (split; [done|lia])
            | rewrite decide_False by (intros [[] _]) ];
      eexists; (split; [done|]); cbn [queue lastLeakTime];
      repeat split; try lia; try nia.
Qed.

Lemma lb_interval_inv ip a ts : ∀ now,
  StronglySorted Z.le (ts ++ [now]) →
  ∃ bucket,
    (run limiter ∅ (from ip (ts ++ [now]))).1 !! ip = Some bucket ∧
    settled queueCapacity leakRate now bucket ∧
    let C := Z.of_nat (length (filter (λ p : Z * Response, admitted p.2 ∧ a ≤ p.1)
                                 (zip (ts ++ [now])
                                      (run limiter ∅ (from ip (ts ++ [now]))).2))) in
    (now < a → C = 0) ∧
    leakRate * (C - queue bucket)
      ≤ Z.max 0 (lastLeakTime bucket - a + leakRate - 1).
Proof.
  induction ts as [|t ts IH] using rev_ind; intros now Hsorted.
  - change (from ip ([] ++ [now])) with [(ip, now)].
    rewrite run_cons, lb_new by done. cbn [run fst snd app zip zip_with].
    eexists. split; [apply lookup_insert_eq|].
    split; [unfold settled; simpl; lia|].
    rewrite filter_cons. cbn [fst snd admitted queue lastLeakTime].
    destruct (decide _) as [[_ ?]|Hn]; rewrite filter_nil; cbn [length].
    + split; nia.
    + assert (¬ a ≤ now) by (intros ?; apply Hn; by split). split; nia.
  - pose proof (sorted_snoc_le _ _ Hsorted) as Hall.
    apply StronglySorted_app_1_l in Hsorted as Hs.
    destruct (IH t Hs) as (bucket & Hb & Hset & Hbefore & HJ).
    assert (t ≤ now) as Hle.
    { rewrite Forall_forall in Hall. apply Hall. set_solver. }
    rewrite run_from_snoc. cbn [fst snd].
    rewrite count_snoc by (by rewrite run_from_length).
    destruct (lb_interval_step _ ip t now bucket _ a Hb Hset Hle Hbefore HJ)
      as (bucket1 & Hb1 & Hset1 & Hbefore1 & HJ1).
    exists bucket1. split; [done|]. split; [done|].
    rewrite Nat2Z.inj_add.
    destruct (decide (admitted _ ∧ a ≤ now)); simpl in *; split;
      first [lia | by rewrite Z.add_0_r].
Qed.

Lemma lb_interval_single ip a b ts :
  a ≤ b →
  StronglySorted Z.le ts →
  Z.of_nat (length (filter (λ p : Z * Response, admitted p.2 ∧ a ≤ p.1 ≤ b)
                      (zip ts (run limiter ∅ (from ip ts)).2)))
  ≤ queueCapacity + (b - a) / leakRate + 1.
Proof.
  intros Hab.
  induction ts as [|now ts IH] using rev_ind; intros Hsorted.
  - simpl. assert (0 ≤ (b - a) / leakRate) by (apply Z.div_pos; lia). lia.
  - destruct (decide (now ≤ b)) as [Hin|Hout].
    + pose proof (count_ext_in (λ t, a ≤ t ≤ b) (λ t, a ≤ t) (ts ++ [now])
                    (run limiter ∅ (from ip (ts ++ [now]))).2) as Hext.
      cbv beta in Hext. rewrite Hext.
      * destruct (lb_interval_inv ip a ts now Hsorted)
          as (bucket & _ & (Hq & Hcarry) & _ & HJ).
        cbv zeta in HJ.
        set (C := Z.of_nat _) in *.
        pose proof (Z.div_mod (b - a) leakRate ltac:(lia)) as Hdm.
        pose proof (Z.mod_pos_bound (b - a) leakRate rate_pos) as Hmod.
        set (q := (b - a) / leakRate) in *. nia.
      * pose proof (sorted_snoc_le _ _ Hsorted) as Hall.
        apply Forall_app. split.
        -- eapply Forall_impl; [exact Hall|]. intros t Ht. simpl in Ht. lia.
        -- constructor; [lia|constructor].
    + rewrite run_from_snoc. cbn [snd].
      pose proof (count_snoc (λ t, a ≤ t ≤ b) ts
                    (run limiter ∅ (from ip ts)).2 now
                    (limiter (run limiter ∅ (from ip ts)).1 ip now).2
                    (run_from_length _ _ _ _)) as Hsnoc.
      cbv beta in Hsnoc. rewrite Hsnoc.
      rewrite decide_False by (intros [_ ?]; lia).
      rewrite Nat.add_0_r. apply IH.
      by apply StronglySorted_app_1_l in Hsorted.
Qed.

(** X2.  In a run of the server from an empty store, the clock never running
    backwards, capacity at least one and a positive leak interval: among
    the requests of one client with a clock reading in [[a, b]] at most
    [queueCapacity + floor((b - a) / leakRate) + 1] are handed on. *)
Theorem leaky_bucket_rate_bound (reqs : list Request) (ip : string) (a b : Z) :
  clock_ok reqs →
  a ≤ b →
  Z.of_nat (admitted_between ip a b reqs
              (run (leakyBucketRateLimiter queueCapacity leakRate) ∅ reqs).2)
  ≤ queueCapacity + (b - a) / leakRate + 1.
Proof.
  intros Hclock Hab.
  rewrite admitted_between_per_client by apply run_length.
  destruct (run_per_client limiter (lb_frame _ _) (lb_local _ _) reqs ∅ ∅ ip
              eq_refl) as [_ ->].
  apply lb_interval_single; [done|]. by apply clock_ok_times_of.
Qed.

End Facts.

Lemma leaky_bucket_rate_bound_witness :
  Z.of_nat (admitted_between "10.0.0.7" 0 1000
              (from "10.0.0.7" (replicate 12 0 ++ [1000; 1000]))
              (run (leakyBucketRateLimiter queueCapacity leakRate) ∅
                 (from "10.0.0.7" (replicate 12 0 ++ [1000; 1000]))).2)
  ≤ queueCapacity + (1000 - 0) / leakRate + 1.
Proof.
  apply (leaky_bucket_rate_bound queueCapacity leakRate).
  - vm_compute. discriminate.
  - reflexivity.
  - unfold clock_ok. simpl. repeat constructor; lia.
  - lia.
Defined.

End LeakyBucketRate.

(** ** Fixed window: what it admits around a window boundary *)

Module FixedWindowBounds.
Import FixedWindow FixedWindowFacts.

Section Facts.
Variables (windowTime maxRequests : Z).
Local Abbreviation limiter := (fixedWindowRateLimiter windowTime maxRequests).
Hypothesis limit_pos : 1 ≤ maxRequests.
Hypothesis window_pos : 0 < windowTime.

(** One call, with [C] the admitted requests counted so far from clock
    reading [a] on, while the clock is not past [a + windowTime]: they
    belong to the stored window, or to it and one window before. *)
Lemma fw_interval_step store ip T now entry (C a : Z) :
  store !! ip = Some entry →
  settled windowTime maxRequests T entry →
  T ≤ now → now ≤ a + windowTime →
  (T < a → C = 0) →
  (windowStart entry < a → C ≤ count entry) →
  (a ≤ windowStart entry → C ≤ maxRequests + count entry) →
  (windowStart entry = a → C ≤ count entry) →
  ∃ entry1,
    (limiter store ip now).1 !! ip = Some entry1 ∧
    settled windowTime maxRequests now entry1 ∧
    (∀ retryAfter, (limiter store ip now).2 = Status429 retryAfter →
                   1 ≤ retryAfter ≤ Math_ceil (num windowTime / 1000)) ∧
    let C1 := C + (if decide (admitted (limiter store ip now).2 ∧ a ≤ now)
                   then 1 else 0) in
    (now < a → C1 = 0) ∧
    (windowStart entry1 < a → C1 ≤ count entry1) ∧
    (a ≤ windowStart entry1 → C1 ≤ maxRequests + count entry1) ∧
    (windowStart entry1 = a → C1 ≤ count entry1).
Proof.
  intros Hs (Hc & Hws & Hin) Hle Hhi Hbefore H1 H2 H3.
  unfold fixedWindowRateLimiter. rewrite Hs. unfold settled.
  pose proof (Math_ceil_1000_bounds (windowTime - (now - windowStart entry))) as Hr.
  pose proof (Math_ceil_1000_bounds windowTime) as Hw.
  destruct (decide (now < a)) as [Hna|Hna].
  - assert (C = 0) as -> by lia.
    repeat case_bool_decide; cbn [fst snd admitted];
      rewrite ?lookup_insert_eq;
      (rewrite decide_False by (intros [_ ?]; lia));
      eexists; (split; [done|]); cbn [count windowStart];
      (split; [lia|]); (split; [intros ? [=]; lia|]); lia.
  - repeat case_bool_decide; cbn [fst snd admitted];
      rewrite ?lookup_insert_eq;
      first [ rewrite decide_True by (split; [done|lia])
            | rewrite decide_False by (intros [[] _]) ];
      eexists; (split; [done|]); cbn [count windowStart];
      (split; [lia|]); (split; [intros ? [=]; lia|]); lia.
Qed.

Lemma fw_interval_inv ip a ts : ∀ now,
  StronglySorted Z.le (ts ++ [now]) →
  now ≤ a + windowTime →
  ∃ entry,
    (run limiter ∅ (from ip (ts ++ [now]))).1 !! ip = Some entry ∧
    settled windowTime maxRequests now entry ∧
    let C := Z.of_nat (length (filter (λ p : Z * Response, admitted p.2 ∧ a ≤ p.1)
                                 (zip (ts ++ [now])
                                      (run limiter ∅ (from ip (ts ++ [now]))).2))) in
    (now < a → C = 0) ∧
    (windowStart entry < a → C ≤ count entry) ∧
    (a ≤ windowStart entry → C ≤ maxRequests + count entry) ∧
    (windowStart entry = a → C ≤ count entry).
Proof.
  induction ts as [|t ts IH] using rev_ind; intros now Hsorted Hhi.
  - change (from ip ([] ++ [now])) with [(ip, now)].
    rewrite run_cons, fw_open by done. cbn [run fst snd app zip zip_with].
    eexists. split; [apply lookup_insert_eq|].
    split; [unfold settled; simpl; lia|].
    rewrite filter_cons. cbn [fst snd admitted count windowStart].
    destruct (decide _) as [[_ ?]|Hn]; rewrite filter_nil; cbn [length].
    + lia.
    + assert (¬ a ≤ now) by (intros ?; apply Hn; by split). lia.
  - pose proof (sorted_snoc_le _ _ Hsorted) as Hall.
    apply StronglySorted_app_1_l in Hsorted as Hs.
    assert (t ≤ now) as Hle.
    { rewrite Forall_forall in Hall. apply Hall. set_solver. }
    destruct (IH t Hs ltac:(lia)) as (entry & He & Hset & Hbefore & H1 & H2 & H3).
    rewrite run_from_snoc. cbn [fst snd].
    rewrite count_snoc by (by rewrite run_from_length).
    destruct (fw_interval_step _ ip t now entry _ a He Hset Hle Hhi Hbefore H1 H2 H3)
      as (entry1 & He1 & Hset1 & _ & HJ).
    exists entry1. split; [done|]. split; [done|].
    rewrite Nat2Z.inj_add.
    destruct (decide (admitted _ ∧ a ≤ now)); simpl in *;
      rewrite ?Z.add_0_r in *; exact HJ.
Qed.

Lemma fw_interval_single ip a ts :
  StronglySorted Z.le ts →
  Z.of_nat (length (filter (λ p : Z * Response,
                              admitted p.2 ∧ a ≤ p.1 ≤ a + windowTime)
                      (zip ts (run limiter ∅ (from ip ts)).2)))
  ≤ 2 * maxRequests.
Proof.
  induction ts as [|now ts IH] using rev_ind; intros Hsorted.
  - simpl. lia.
  - destruct (decide (now ≤ a + windowTime)) as [Hin|Hout].
    + pose proof (count_ext_in (λ t, a ≤ t ≤ a + windowTime) (λ t, a ≤ t)
                    (ts ++ [now])
                    (run limiter ∅ (from ip (ts ++ [now]))).2) as Hext.
      cbv beta in Hext. rewrite Hext.
      * destruct (fw_interval_inv ip a ts now Hsorted Hin)
          as (entry & _ & (Hc & _ & _) & _ & H1 & H2 & _).
        cbv zeta in H1, H2. set (C := Z.of_nat _) in *.
        destruct (decide (windowStart entry < a)); lia.
      * pose proof (sorted_snoc_le _ _ Hsorted) as Hall.
        apply Forall_app. split.
        -- eapply Forall_impl; [exact Hall|]. intros t Ht. simpl in Ht. lia.
        -- constructor; [lia|constructor].
    + rewrite run_from_snoc. cbn [snd].
      pose proof (count_snoc (λ t, a ≤ t ≤ a + windowTime) ts
                    (run limiter ∅ (from ip ts)).2 now
                    (limiter (run limiter ∅ (from ip ts)).1 ip now).2
                    (run_from_length _ _ _ _)) as Hsnoc.
      cbv beta in Hsnoc. rewrite Hsnoc.
      rewrite decide_False by (intros [_ ?]; lia).
      rewrite Nat.add_0_r. apply IH.
      by apply StronglySorted_app_1_l in Hsorted.
Qed.

(** X3.  In a run of the server from an empty store, the clock never running
    backwards, with a limit of at least one and a positive window: among
    the requests of one client with a clock reading in an interval
    [[a, a + windowTime]] at most twice [maxRequests] are handed on. *)
Theorem fixed_window_double_bound (reqs : list Request) (ip : string) (a : Z) :
  clock_ok reqs →
  Z.of_nat (admitted_between ip a (a + windowTime) reqs
              (run (fixedWindowRateLimiter windowTime maxRequests) ∅ reqs).2)
  ≤ 2 * maxRequests.
Proof.
  intros Hclock.
  rewrite admitted_between_per_client by apply run_length.
  destruct (run_per_client limiter (fw_frame _ _) (fw_local _ _) reqs ∅ ∅ ip
              eq_refl) as [_ ->].
  apply fw_interval_single. by apply clock_ok_times_of.
Qed.

Lemma fw_retry_single ip ts :
  StronglySorted Z.le ts →
  Forall (λ r, ∀ retryAfter, r = Status429 retryAfter →
               1 ≤ retryAfter ≤ Math_ceil (num windowTime / 1000))
         (run limiter ∅ (from ip ts)).2.
Proof.
  induction ts as [|now ts IH] using rev_ind; intros Hsorted; [constructor|].
  rewrite run_from_snoc. cbn [snd].
  apply StronglySorted_app_1_l in Hsorted as Hs.
  apply Forall_app. split; [by apply IH|]. constructor; [|constructor].
  destruct ts as [|t ts _] using rev_ind.
  - cbn [from fmap list_fmap run fst]. rewrite fw_open by done. by intros ? [=].
  - pose proof (sorted_snoc_le _ _ Hsorted) as Hall.
    assert (t ≤ now) as Hle.
    { rewrite Forall_forall in Hall. apply Hall. set_solver. }
    destruct (fw_interval_inv ip t ts t Hs ltac:(lia))
      as (entry & He & Hset & _).
    pose proof Hset as (Hc & _ & _).
    destruct (fw_interval_step _ ip t now entry 0 now He Hset Hle) as
      (_ & _ & _ & Hretry & _); try (intros; lia).
    exact Hretry.
Qed.

(** X4.  In a run from an empty store whose clock never goes back, with a
    limit of at least one and a positive window, every 429 of the fixed
    window carries a [retryAfter] of at least one second and at most the
    window length in seconds, rounded up. *)
Theorem fixed_window_retry_range (reqs : list Request) (ip : string) :
  clock_ok reqs →
  Forall (λ r, ∀ retryAfter, r = Status429 retryAfter →
               1 ≤ retryAfter ≤ Math_ceil (num windowTime / 1000))
         (responses_of ip reqs
            (run (fixedWindowRateLimiter windowTime maxRequests) ∅ reqs).2).
Proof.
  intros Hclock.
  destruct (run_per_client limiter (fw_frame _ _) (fw_local _ _) reqs ∅ ∅ ip
              eq_refl) as [_ ->].
  apply fw_retry_single. by apply clock_ok_times_of.
Qed.

End Facts.

Section Burst.
Variables (windowTime : Z) (n : nat).

(** X5.  The burst at a window boundary: a client opens a window at [t0],
    fills it at [t1] and, once the window has run out, sends as many
    requests again at [t2]: all of them are handed on, twice the limit
    minus one between [t1] and [t2], which may be one millisecond
    apart. *)
Theorem fixed_window_boundary_burst
    (store : gmap string Entry) (reqs : list Request) (ip : string)
    (t0 t1 t2 : Z) :
  0 < windowTime →
  opens_window windowTime store ip t0 →
  t1 - t0 < windowTime →
  windowTime ≤ t2 - t0 →
  times_of ip reqs = t0 :: replicate n t1 ++ t2 :: replicate n t2 →
  responses_of ip reqs
    (run (fixedWindowRateLimiter windowTime (Z.of_nat (S n))) store reqs).2
  = replicate (2 * S n) Next.
Proof.
  intros Hw Hopen Ht1 Ht2 Htimes.
  set (limit := Z.of_nat (S n)).
  destruct (run_per_client _ (fw_frame windowTime limit)
              (fw_local windowTime limit) reqs store store ip eq_refl) as [_ ->].
  rewrite Htimes.
  change (from ip (t0 :: replicate n t1 ++ t2 :: replicate n t2))
    with ((ip, t0) :: from ip (replicate n t1 ++ t2 :: replicate n t2)).
  rewrite run_cons, (fw_open _ _ _ _ _ Hopen). cbn [fst snd].
  unfold from. rewrite fmap_app, fmap_cons.
  fold (from ip (replicate n t1)). fold (from ip (replicate n t2)).
  rewrite run_app. cbn [fst snd].
  set (store1 := <[ip := {| count := 1; windowStart := t0 |}]> store).
  destruct (fw_burst windowTime limit (replicate n t1) store1 ip 1 t0)
    as [Hrs1 Hst1].
  { apply lookup_insert_eq. }
  { rewrite length_replicate. subst limit. lia. }
  { apply Forall_replicate. done. }
  rewrite Hrs1. rewrite length_replicate in *.
  set (store2 := (run _ store1 _).1) in *.
  rewrite run_cons. cbn [fst snd].
  assert (opens_window windowTime store2 ip t2) as Hopen2.
  { unfold opens_window. rewrite Hst1. simpl. lia. }
  rewrite (fw_open _ _ _ _ _ Hopen2). cbn [fst snd].
  set (store3 := <[ip := {| count := 1; windowStart := t2 |}]> store2).
  destruct (fw_burst windowTime limit (replicate n t2) store3 ip 1 t2)
    as [Hrs2 _].
  { apply lookup_insert_eq. }
  { rewrite length_replicate. subst limit. lia. }
  { apply Forall_replicate. lia. }
  rewrite Hrs2, length_replicate.
  change (Next :: replicate n Next ++ Next :: replicate n Next)
    with (replicate (S n) Next ++ replicate (S n) Next).
  rewrite <- replicate_add. f_equal. lia.
Qed.

End Burst.

Lemma fixed_window_double_bound_witness :
  Z.of_nat (admitted_between "10.0.0.7" 899999 (899999 + windowTime)
              (from "10.0.0.7" [0; 899999; 900000; 900001])
              (run (fixedWindowRateLimiter windowTime maxRequests) ∅
                 (from "10.0.0.7" [0; 899999; 900000; 900001])).2)
  ≤ 2 * maxRequests.
Proof.
  apply (fixed_window_double_bound windowTime maxRequests).
  - vm_compute. discriminate.
  - reflexivity.
  - unfold clock_ok. simpl. repeat constructor; lia.
Defined.

Lemma fixed_window_retry_range_witness :
  responses_of "10.0.0.7" (from "10.0.0.7" [0; 1; 2; 899001; 899999; 900000])
    (run (fixedWindowRateLimiter windowTime 2) ∅
       (from "10.0.0.7" [0; 1; 2; 899001; 899999; 900000])).2
  = [Next; Next; Status429 900; Status429 1; Status429 1; Next] ∧
  Math_ceil (num windowTime / 1000) = 900 ∧
  Forall (λ r, ∀ retryAfter, r = Status429 retryAfter →
               1 ≤ retryAfter ≤ Math_ceil (num windowTime / 1000))
         (responses_of "10.0.0.7"
            (from "10.0.0.7" [0; 1; 2; 899001; 899999; 900000])
            (run (fixedWindowRateLimiter windowTime 2) ∅
               (from "10.0.0.7" [0; 1; 2; 899001; 899999; 900000])).2).
Proof.
  split; [vm_compute; reflexivity|].
  split; [vm_compute; reflexivity|].
  apply (fixed_window_retry_range windowTime 2).
  - vm_compute. discriminate.
  - reflexivity.
  - unfold clock_ok. simpl. repeat constructor; lia.
Defined.

Lemma fixed_window_boundary_burst_witness :
  responses_of "10.0.0.7"
    (from "10.0.0.7" (0 :: replicate 99 899999 ++ 900000 :: replicate 99 900000))
    (run (fixedWindowRateLimiter windowTime (Z.of_nat 100)) ∅
       (from "10.0.0.7"
          (0 :: replicate 99 899999 ++ 900000 :: replicate 99 900000))).2
  = replicate 200 Next.
Proof.
  apply (fixed_window_boundary_burst windowTime 99 ∅ _ "10.0.0.7" 0 899999 900000).
  - reflexivity.
  - exact I.
  - reflexivity.
  - vm_compute. discriminate.
  - vm_compute. reflexivity.
Defined.

End FixedWindowBounds.

(** ** Sliding window log: decisions in terms of the request history *)

Module SlidingWindowLogHistory.
Import SlidingWindowLog SlidingWindowLogFacts.

Section Facts.
Variables (windowMs maxRequests : Z).
Local Abbreviation limiter := (slidingWindowRateLimiter windowMs maxRequests).

Lemma swl_response store ip now :
  (limiter store ip now).2 =
  match store !! ip with
  | None => Next
  | Some timeStamps =>
      if bool_decide (maxRequests
                      < Z.of_nat (length (prune windowMs now timeStamps ++ [now])))
      then Status429
             (Math_ceil (num (windowMs
                              - (now - default now
                                         (head (prune windowMs now timeStamps
                                                ++ [now])))) / 1000))
      else Next
  end.
Proof.
  unfold slidingWindowRateLimiter.
  destruct (store !! ip); [by case_bool_decide|done].
Qed.

(** X6.  The answer to a request depends on the clock readings of the
    client's earlier requests alone, whether they were handed on or
    rejected: the first request of a client is handed on; a later one is
    handed on when, itself included, at most [maxRequests] of the
    client's requests are not older than [windowMs], and is answered 429
    otherwise, the hint being computed from the oldest of them. *)
Theorem sliding_log_decision (pre : list Request) (ip : string) (now : Z) :
  clock_ok (pre ++ [(ip, now)]) →
  let earlier := filter (λ t, now - t ≤ windowMs) (times_of ip pre) in
  (run (slidingWindowRateLimiter windowMs maxRequests) ∅ (pre ++ [(ip, now)])).2
  = (run (slidingWindowRateLimiter windowMs maxRequests) ∅ pre).2 ++
    [if decide (times_of ip pre = []) then Next
     else if bool_decide (maxRequests < Z.of_nat (length earlier) + 1) then
       Status429 (Math_ceil (num (windowMs - (now - default now (head earlier)))
                             / 1000))
     else Next].
Proof.
  intros Hclock earlier. rewrite run_snoc. cbn [snd]. do 2 f_equal.
  assert (clock_ok pre) as Hclock0.
  { unfold clock_ok in *. rewrite fmap_app in Hclock.
    by apply StronglySorted_app_1_l in Hclock. }
  pose proof (clock_ok_times_of ip pre Hclock0) as Hsorted.
  rewrite swl_response.
  destruct (run_per_client limiter (swl_frame _ _) (swl_local _ _) pre ∅ ∅ ip
              eq_refl) as [-> _].
  subst earlier. remember (times_of ip pre) as tsall eqn:E.
  destruct tsall as [|T ts _] using rev_ind.
  - rewrite decide_True by done. done.
  - rewrite decide_False by (by destruct ts).
    assert (T ≤ now) as Hle.
    { apply (clock_ok_snoc pre ip now T Hclock). rewrite <- E. apply last_snoc. }
    rewrite (swl_log_after _ _ ip ts T Hsorted).
    rewrite prune_prune by done. unfold prune.
    set (kept := filter _ (ts ++ [T])).
    rewrite length_app. cbn [length].
    replace (Z.of_nat (length kept + 1)) with (Z.of_nat (length kept) + 1) by lia.
    case_bool_decide as Hfull; [|done].
    destruct kept as [|oldest kept']; [|done].
    simpl in Hfull. cbn [head app default from_option id]. done.
Qed.



End Facts.

Lemma sliding_log_decision_witness :
  (run (slidingWindowRateLimiter 1000 1) ∅
     ([("10.0.0.7", 0); ("10.0.0.7", 500)] ++ [("10.0.0.7", 1001)])).2
  = [Next; Status429 1; Status429 1].
Proof.
  pose proof (sliding_log_decision 1000 1 [("10.0.0.7", 0); ("10.0.0.7", 500)]
                "10.0.0.7" 1001) as H.
  cbv zeta in H. etrans; [apply H|].
  - unfold clock_ok. simpl. repeat constructor; lia.
  - vm_compute. reflexivity.
Defined.


End SlidingWindowLogHistory.

(** ** Sliding window counter: the entry a history leaves *)

Module SlidingWindowCounterEstimate.
Import SlidingWindowCounter SlidingWindowCounterFacts.

Section Facts.
Variables (windowSize maxRequests : Z).
Local Abbreviation limiter :=
  (slidingWindowCounterRateLimiter windowSize maxRequests).
Hypothesis window_pos : 0 < windowSize.

Lemma swc_new store ip now :
  store !! ip = None →
  limiter store ip now =
  (<[ip := {| current := {| timestamp := windowStart windowSize now; count := 1 |};
              previous := {| timestamp := windowStart windowSize now - windowSize;
                             count := 0 |} |}]> store, Next).
Proof. intros Hs. unfold slidingWindowCounterRateLimiter. by rewrite Hs. Qed.

Lemma windowStart_mono t t' :
  t ≤ t' → windowStart windowSize t ≤ windowStart windowSize t'.
Proof.
  intros Hle. rewrite !windowStart_floor.
  apply Z.mul_le_mono_nonneg_r; [lia|]. by apply Z.div_le_mono.
Qed.

Lemma window_count_snoc start ts t :
  window_count windowSize start (ts ++ [t]) =
  window_count windowSize start ts
  + (if decide (windowStart windowSize t = start) then 1 else 0).
Proof.
  unfold window_count. rewrite filter_app, length_app, Nat2Z.inj_add. f_equal.
  rewrite filter_cons, filter_nil. by case_decide.
Qed.

Lemma window_count_none start ts :
  Forall (λ t, windowStart windowSize t ≠ start) ts →
  window_count windowSize start ts = 0.
Proof.
  intros Hall. unfold window_count.
  induction Hall as [|t ts Ht Hall IH]; [done|].
  by rewrite filter_cons_False.
Qed.

(** One more request after a history: shifting the entry of the history
    gives the entry of the longer history. *)
Lemma shift_entry_of_history ts T T' :
  Forall (λ t, t ≤ T) ts → T ≤ T' →
  shift windowSize (entry_of_history windowSize ts T) T'
  = entry_of_history windowSize (ts ++ [T]) T'.
Proof.
  intros Hall Hle. unfold shift, entry_of_history at 1.
  cbn [current previous timestamp count].
  case_bool_decide as Hroll.
  - (* a new window: the old current becomes previous *)
    assert (windowStart windowSize T < windowStart windowSize T') as Hlt.
    { pose proof (windowStart_mono T T' Hle). lia. }
    unfold entry_of_history. f_equal.
    + f_equal. rewrite window_count_snoc, decide_True by done.
      rewrite window_count_none; [done|].
      apply Forall_app. split; [|constructor; [lia|constructor]].
      eapply Forall_impl; [exact Hall|]. intros t Ht. simpl in Ht.
      pose proof (windowStart_mono t T Ht). lia.
    + cbn [current]. rewrite filter_app, (filter_cons_True _ T) by lia.
      rewrite filter_nil, last_snoc. done.
  - (* the same window: one more request in it *)
    assert (windowStart windowSize T = windowStart windowSize T') as Heq.
    { destruct (decide (windowStart windowSize T = windowStart windowSize T'));
        [done|]. by destruct Hroll. }
    unfold entry_of_history. rewrite <- Heq. f_equal.
    + f_equal. rewrite (window_count_snoc _ (ts ++ [T]) T').
      rewrite decide_True by done. done.
    + rewrite filter_app, (filter_cons_False _ T) by (intros Hne; by apply Hne).
      rewrite filter_nil, app_nil_r.
      destruct (last (filter _ ts)) as [t'|] eqn:Hlast; [|done].
      cbn [previous]. f_equal. rewrite window_count_snoc, decide_False; [lia|].
      apply last_Some in Hlast as [l Hl].
      assert (t' ∈ filter (λ t, windowStart windowSize t ≠ windowStart windowSize T) ts)
        as Hin by (rewrite Hl; set_solver).
      apply list_elem_of_filter in Hin as [Hne _]. congruence.
Qed.

Lemma swc_entry_single ip ts : ∀ T,
  StronglySorted Z.le (ts ++ [T]) →
  (run limiter ∅ (from ip (ts ++ [T]))).1 !! ip
  = Some (entry_of_history windowSize ts T).
Proof.
  induction ts as [|t ts IH] using rev_ind; intros T Hsorted.
  - change (from ip ([] ++ [T])) with [(ip, T)].
    rewrite run_cons, swc_new by done. cbn [run fst].
    rewrite lookup_insert_eq. unfold entry_of_history, window_count.
    cbn [app filter last]. rewrite filter_cons_True by done. done.
  - pose proof (sorted_snoc_le _ _ Hsorted) as Hall.
    apply StronglySorted_app_1_l in Hsorted as Hs.
    rewrite run_from_snoc. cbn [fst].
    rewrite (swc_call _ _ _ _ _ _ (IH t Hs)), lookup_insert_eq. f_equal.
    apply shift_entry_of_history.
    + by apply sorted_snoc_le.
    + rewrite Forall_forall in Hall. apply Hall. set_solver.
Qed.

(** X10.  After a run from an empty store, the clock never running backwards,
    the entry of a client is determined by the clock readings of its
    requests, rejected ones included: [current] is the window of the last
    request with the number of requests in it, [previous] is the last
    window before it in which the client sent a request, however long
    ago, with the number of requests in it; when there is none it is the
    window just before with count zero. *)
Theorem sliding_counter_entry_of_history
    (reqs : list Request) (ip : string) (ts : list Z) (T : Z) :
  clock_ok reqs →
  times_of ip reqs = ts ++ [T] →
  (run (slidingWindowCounterRateLimiter windowSize maxRequests) ∅ reqs).1 !! ip
  = Some (entry_of_history windowSize ts T).
Proof.
  intros Hclock Htimes.
  destruct (run_per_client limiter (swc_frame _ _) (swc_local _ _) reqs ∅ ∅ ip
              eq_refl) as [-> _].
  rewrite Htimes. apply swc_entry_single.
  rewrite <- Htimes. by apply clock_ok_times_of.
Qed.

End Facts.

Lemma sliding_counter_entry_of_history_witness :
  (run (slidingWindowCounterRateLimiter windowSize maxRequests) ∅
     (from "10.0.0.7" [0; 10; 120000; 120001; 120002])).1 !! "10.0.0.7"
  = Some {| current := {| timestamp := 120000; count := 3 |};
            previous := {| timestamp := 0; count := 2 |} |}.
Proof.
  etrans.
  - apply (sliding_counter_entry_of_history windowSize maxRequests
             ltac:(reflexivity) _ "10.0.0.7" [0; 10; 120000; 120001] 120002).
    + unfold clock_ok. simpl. repeat constructor; lia.
    + vm_compute. reflexivity.
  - vm_compute. reflexivity.
Defined.

End SlidingWindowCounterEstimate.

(** ** The middleware chain *)

Lemma handed_on_cons {T : Type} (q : string * T) reqs r rs :
  handed_on (q :: reqs) (r :: rs) =
  if admitted r then q :: handed_on reqs rs else handed_on reqs rs.
Proof.
  unfold handed_on. cbn [zip zip_with]. rewrite filter_cons. cbn [snd].
  destruct r; cbn [admitted]; by case_decide.
Qed.

Lemma handed_on_nil_r {T : Type} (reqs : list (string * T)) :
  handed_on reqs [] = [].
Proof. unfold handed_on. by destruct reqs. Qed.

Lemma handed_on_readings {T U : Type} (f : T → U) (reqs : list (string * T)) :
  ∀ rs, (λ q, (q.1, f q.2)) <$> handed_on reqs rs
        = handed_on ((λ q, (q.1, f q.2)) <$> reqs) rs.
Proof.
  induction reqs as [|q reqs IH]; intros [|r rs];
    rewrite ?handed_on_nil_r; try done.
  rewrite fmap_cons, !handed_on_cons.
  destruct (admitted r); [rewrite fmap_cons|]; by rewrite IH.
Qed.

Lemma handed_on_sublist {T : Type} (reqs : list (string * T)) :
  ∀ rs, handed_on reqs rs `sublist_of` reqs.
Proof.
  induction reqs as [|q reqs IH]; intros [|r rs];
    rewrite ?handed_on_nil_r; try apply sublist_nil_l.
  rewrite handed_on_cons. destruct (admitted r).
  - by apply sublist_skip.
  - by apply sublist_cons.
Qed.

Section Chain.
Context {S1 S2 T1 T2 : Type}.
Variable first : Middleware S1 T1.
Variable then_ : Middleware S2 T2.

Lemma exec_cons {S T : Type} (m : Middleware S T) s ip t rest :
  exec m s ((ip, t) :: rest) =
  ((exec m (m s ip t).1 rest).1,
   (m s ip t).2 :: (exec m (m s ip t).1 rest).2).
Proof.
  simpl. destruct (m s ip t) as [s1 r]. simpl.
  by destruct (exec m s1 rest).
Qed.

Lemma exec_length {S T : Type} (m : Middleware S T) reqs : ∀ s,
  length (exec m s reqs).2 = length reqs.
Proof.
  induction reqs as [|[ip t] rest IH]; intros s; [done|].
  rewrite exec_cons. simpl. by rewrite IH.
Qed.

Lemma chain_step s1 s2 ip t1 t2 :
  chain first then_ (s1, s2) ip (t1, t2) =
  if admitted (first s1 ip t1).2
  then (((first s1 ip t1).1, (then_ s2 ip t2).1), (then_ s2 ip t2).2)
  else (((first s1 ip t1).1, s2), (first s1 ip t1).2).
Proof.
  unfold chain. cbn [fst snd]. destruct (first s1 ip t1) as [s1' r1].
  cbn [fst snd]. destruct (admitted r1); [|done]. by destruct (then_ s2 ip t2).
Qed.

(** In a chain the first middleware sees every request and the second
    sees exactly those the first has handed on; the chain hands on what
    the second hands on of them. *)
Lemma chain_exec reqs : ∀ s1 s2,
  let through := handed_on reqs (exec first s1 (first_reading reqs)).2 in
  (exec (chain first then_) (s1, s2) reqs).1 =
    ((exec first s1 (first_reading reqs)).1,
     (exec then_ s2 (later_readings through)).1) ∧
  handed_on reqs (exec (chain first then_) (s1, s2) reqs).2 =
    handed_on through (exec then_ s2 (later_readings through)).2.
Proof.
  induction reqs as [|[ip [t1 t2]] rest IH]; intros s1 s2; [done|].
  cbn zeta. change (first_reading ((ip, (t1, t2)) :: rest))
    with ((ip, t1) :: first_reading rest).
  rewrite !exec_cons, chain_step. cbn [fst snd]. rewrite !handed_on_cons.
  destruct (first s1 ip t1) as [s1' r1] eqn:E1. cbn [fst snd].
  destruct (admitted r1) eqn:Hr1; cbn [fst snd].
  - change (later_readings ((ip, (t1, t2)) :: ?l))
      with ((ip, t2) :: later_readings l).
    rewrite exec_cons. cbn [fst snd].
    destruct (then_ s2 ip t2) as [s2' r2] eqn:E2. cbn [fst snd].
    rewrite !handed_on_cons.
    destruct (IH s1' s2') as [IH1 IH2]. cbn zeta in IH1, IH2.
    rewrite IH1. split; [done|]. destruct (admitted r2); by rewrite IH2.
  - rewrite Hr1. destruct (IH s1' s2) as [IH1 IH2]. cbn zeta in IH1, IH2.
    by rewrite IH1, IH2.
Qed.

Lemma chain_exec_stores reqs s1 s2 :
  (exec (chain first then_) (s1, s2) reqs).1 =
  ((exec first s1 (first_reading reqs)).1,
   (exec then_ s2
      (later_readings (handed_on reqs (exec first s1 (first_reading reqs)).2))).1).
Proof. apply chain_exec. Qed.

Lemma chain_exec_handed_on reqs s1 s2 :
  handed_on reqs (exec (chain first then_) (s1, s2) reqs).2 =
  handed_on (handed_on reqs (exec first s1 (first_reading reqs)).2)
    (exec then_ s2
       (later_readings (handed_on reqs (exec first s1 (first_reading reqs)).2))).2.
Proof. apply chain_exec. Qed.

(** What a chain hands on, the first middleware has handed on; seen with
    the later readings it is what the rest of the chain hands on. *)
Lemma chain_handed_on_first reqs s1 s2 :
  handed_on reqs (exec (chain first then_) (s1, s2) reqs).2
  `sublist_of` handed_on reqs (exec first s1 (first_reading reqs)).2.
Proof. rewrite chain_exec_handed_on. apply handed_on_sublist. Qed.

Lemma chain_handed_on_later reqs s1 s2 :
  later_readings (handed_on reqs (exec (chain first then_) (s1, s2) reqs).2)
  = handed_on
      (later_readings (handed_on reqs (exec first s1 (first_reading reqs)).2))
      (exec then_ s2
         (later_readings (handed_on reqs (exec first s1 (first_reading reqs)).2))).2.
Proof.
  rewrite chain_exec_handed_on. apply (handed_on_readings snd).
Qed.

End Chain.

Lemma exec_run {St : Type}
    (limiter : gmap string St → string → Z → gmap string St * Response) reqs :
  ∀ store, exec limiter store reqs = run limiter store reqs.
Proof.
  induction reqs as [|[ip now] rest IH]; intros store; [done|].
  by rewrite exec_cons, run_cons, !IH.
Qed.

Lemma sublist_count {A : Type} (P : A → Prop) `{!∀ x, Decision (P x)} l1 l2 :
  l1 `sublist_of` l2 → (length (filter P l1) ≤ length (filter P l2))%nat.
Proof.
  induction 1 as [|x l1 l2 _ IH|x l1 l2 _ IH]; [done| |].
  - rewrite !filter_cons. case_decide; simpl; lia.
  - rewrite filter_cons. case_decide; simpl; lia.
Qed.

Lemma sublist_sorted l1 l2 :
  l1 `sublist_of` l2 → StronglySorted Z.le l2 → StronglySorted Z.le l1.
Proof.
  induction 1 as [|x l1 l2 Hsub IH|x l1 l2 Hsub IH]; intros Hs; [done| |].
  - apply StronglySorted_inv in Hs as [Hs Hall]. constructor; [by apply IH|].
    apply Forall_forall. intros y Hy. rewrite Forall_forall in Hall.
    apply Hall. by eapply elem_of_sublist.
  - apply StronglySorted_inv in Hs as [Hs _]. by apply IH.
Qed.

(** Counting over the handed-on requests is counting the admitted ones. *)
Lemma admitted_between_handed_on ip lo hi reqs : ∀ rs,
  admitted_between ip lo hi reqs rs
  = length (filter (λ q : Request, q.1 = ip ∧ lo ≤ q.2 ≤ hi) (handed_on reqs rs)).
Proof.
  unfold admitted_between. unfold Request in *.
  induction reqs as [|q reqs IH]; intros [|r rs];
    rewrite ?handed_on_nil_r; try done.
  - rewrite handed_on_cons.
    cbn [zip zip_with]. rewrite filter_cons. cbn [fst snd].
    destruct r; cbn [admitted].
    + rewrite filter_cons.
      destruct (decide (q.1 = ip ∧ lo ≤ q.2 ≤ hi)) as [Hq|Hq].
      * rewrite decide_True by (destruct Hq; split; [done|split; [exact I|done]]).
        cbn [length]. by rewrite IH.
      * rewrite decide_False by (intros (? & _ & ?); by apply Hq). apply IH.
    + rewrite decide_False by (intros (_ & [] & _)). apply IH.
    + rewrite decide_False by (intros (_ & [] & _)). apply IH.
Qed.

Lemma later_readings_handed_on {T1 T2 : Type}
    (reqs : list (string * (T1 * T2))) rs :
  later_readings (handed_on reqs rs) = handed_on (later_readings reqs) rs.
Proof. apply (handed_on_readings snd). Qed.

Lemma first_reading_handed_on {T1 T2 : Type}
    (reqs : list (string * (T1 * T2))) rs :
  first_reading (handed_on reqs rs) = handed_on (first_reading reqs) rs.
Proof. apply (handed_on_readings fst). Qed.

Module ServerFacts.
Import Server.

(** X11.  In a run of the chain of [server.js] every limiter's store is the
    one its own run leaves on the requests it got to see: the fixed
    window on all requests, each later limiter on those that all
    limiters before it handed on, so a request that a later limiter
    rejects has still been counted by the earlier ones.  The requests
    that reach the route handler are those the leaky bucket hands on. *)
Theorem server_chain_factorises
    (reqs : list (string * (Z * (Z * (Z * (Z * Z)))))) :
  (exec app fresh reqs).1 =
    ((run fixedWindow ∅ (seen_fixedWindow reqs)).1,
     ((run slidingLog ∅ (seen_slidingLog reqs)).1,
      ((run slidingCounter ∅ (seen_slidingCounter reqs)).1,
       ((run tokenBucket ∅ (seen_tokenBucket reqs)).1,
        (run leakyBucket ∅ (seen_leakyBucket reqs)).1)))) ∧
  later_readings (later_readings (later_readings (later_readings
    (handed_on reqs (exec app fresh reqs).2))))
  = served reqs.
Proof.
  unfold app, fresh, served, seen_leakyBucket, seen_tokenBucket,
    after_slidingCounter, seen_slidingCounter, after_slidingLog,
    seen_slidingLog, after_fixedWindow, seen_fixedWindow.
  rewrite <- !exec_run.
  rewrite chain_exec_handed_on, !chain_exec_stores.
  split; [done|].
  rewrite later_readings_handed_on, chain_exec_handed_on.
  rewrite later_readings_handed_on, chain_exec_handed_on.
  rewrite later_readings_handed_on, chain_exec_handed_on.
  by rewrite later_readings_handed_on.
Qed.

(** A list that is part of what a limiter handed on holds, for a client
    and a range of readings, at most the requests the limiter admitted. *)
Lemma sublist_admitted_between ip lo hi (l reqs : list Request) rs :
  l `sublist_of` handed_on reqs rs →
  Z.of_nat (length (filter (λ q : Request, q.1 = ip ∧ lo ≤ q.2 ≤ hi) l))
  ≤ Z.of_nat (admitted_between ip lo hi reqs rs).
Proof.
  intros Hsub. rewrite admitted_between_handed_on.
  apply inj_le. by apply sublist_count.
Qed.

(** The requests that pass the whole chain, each with the reading one
    limiter took, are among those that limiter handed on. *)
Lemma served_fixedWindow reqs :
  first_reading (handed_on reqs (exec app fresh reqs).2)
  `sublist_of`
  handed_on (seen_fixedWindow reqs) (run fixedWindow ∅ (seen_fixedWindow reqs)).2.
Proof.
  unfold seen_fixedWindow, app, fresh.
  rewrite <- exec_run, <- first_reading_handed_on.
  apply fmap_sublist, chain_handed_on_first.
Qed.

Lemma served_after_fixedWindow reqs :
  later_readings (handed_on reqs (exec app fresh reqs).2)
  = handed_on (after_fixedWindow reqs)
      (exec (chain slidingLog (chain slidingCounter (chain tokenBucket leakyBucket)))
         (∅, (∅, (∅, ∅))) (after_fixedWindow reqs)).2.
Proof.
  unfold after_fixedWindow, seen_fixedWindow, app, fresh.
  rewrite <- exec_run. apply chain_handed_on_later.
Qed.

Lemma served_slidingLog reqs :
  first_reading (later_readings (handed_on reqs (exec app fresh reqs).2))
  `sublist_of`
  handed_on (seen_slidingLog reqs) (run slidingLog ∅ (seen_slidingLog reqs)).2.
Proof.
  rewrite served_after_fixedWindow. unfold seen_slidingLog.
  rewrite <- exec_run, <- first_reading_handed_on.
  apply fmap_sublist, chain_handed_on_first.
Qed.

Lemma served_after_slidingLog reqs :
  later_readings (later_readings (handed_on reqs (exec app fresh reqs).2))
  = handed_on (after_slidingLog reqs)
      (exec (chain slidingCounter (chain tokenBucket leakyBucket))
         (∅, (∅, ∅)) (after_slidingLog reqs)).2.
Proof.
  rewrite served_after_fixedWindow. unfold after_slidingLog, seen_slidingLog.
  rewrite <- exec_run. apply chain_handed_on_later.
Qed.

Lemma served_after_slidingCounter reqs :
  later_readings (later_readings (later_readings
    (handed_on reqs (exec app fresh reqs).2)))
  = handed_on (after_slidingCounter reqs)
      (exec (chain tokenBucket leakyBucket) (∅, ∅) (after_slidingCounter reqs)).2.
Proof.
  rewrite served_after_slidingLog.
  unfold after_slidingCounter, seen_slidingCounter.
  rewrite <- exec_run. apply chain_handed_on_later.
Qed.

Lemma served_tokenBucket reqs :
  first_reading (later_readings (later_readings (later_readings
    (handed_on reqs (exec app fresh reqs).2))))
  `sublist_of`
  handed_on (seen_tokenBucket reqs) (run tokenBucket ∅ (seen_tokenBucket reqs)).2.
Proof.
  rewrite served_after_slidingCounter. unfold seen_tokenBucket.
  rewrite <- exec_run, <- first_reading_handed_on.
  apply fmap_sublist, chain_handed_on_first.
Qed.

Lemma served_leakyBucket reqs :
  later_readings (later_readings (later_readings (later_readings
    (handed_on reqs (exec app fresh reqs).2))))
  = handed_on (seen_leakyBucket reqs) (run leakyBucket ∅ (seen_leakyBucket reqs)).2.
Proof.
  rewrite served_after_slidingCounter. unfold seen_leakyBucket, seen_tokenBucket.
  rewrite <- !exec_run. apply chain_handed_on_later.
Qed.

(** X12.  The chain of [server.js] serves a client no more than each
    limiter allows on its own readings.  Provided the readings each
    limiter takes never go back, the requests of one client that pass
    all five limiters number: at most twice the fixed window's
    [maxRequests] with fixed-window readings in any span of
    [windowTime]; at most the sliding log's [maxRequests] with
    sliding-log readings in any span of [windowMs]; at most
    [bucketCapacity + (b - a) * refillRate / 1000 + 1] with token-bucket
    readings in [[a, b]]; and at most
    [queueCapacity + (b - a) / leakRate + 1] with leaky-bucket readings
    in [[a, b]]. *)
Theorem server_serves_within_limits
    (reqs : list (string * (Z * (Z * (Z * (Z * Z)))))) (ip : string) (a b : Z) :
  clock_ok (seen_fixedWindow reqs) →
  clock_ok (seen_slidingLog reqs) →
  clock_ok (seen_tokenBucket reqs) →
  clock_ok (seen_leakyBucket reqs) →
  a ≤ b →
  let passed := handed_on reqs (exec app fresh reqs).2 in
  let count (lo hi : Z) (l : list Request) :=
    Z.of_nat (length (filter (λ q : Request, q.1 = ip ∧ lo ≤ q.2 ≤ hi) l)) in
  count a (a + FixedWindow.windowTime) (first_reading passed)
    ≤ 2 * FixedWindow.maxRequests ∧
  count a (a + SlidingWindowLog.windowMs) (first_reading (later_readings passed))
    ≤ SlidingWindowLog.maxRequests ∧
  count a b
    (first_reading (later_readings (later_readings (later_readings passed))))
    ≤ TokenBucket.bucketCapacity + (b - a) * TokenBucket.refillRate / 1000 + 1 ∧
  count a b
    (later_readings (later_readings (later_readings (later_readings passed))))
    ≤ LeakyBucket.queueCapacity + (b - a) / LeakyBucket.leakRate + 1.
Proof.
  intros Hfw Hswl Htb Hlb Hab passed count. subst passed count. cbv beta.
  repeat split.
  - etrans; [apply sublist_admitted_between, served_fixedWindow|].
    rewrite admitted_between_per_client by apply run_length.
    destruct (run_per_client fixedWindow (FixedWindowFacts.fw_frame _ _)
                (FixedWindowFacts.fw_local _ _) (seen_fixedWindow reqs) ∅ ∅ ip
                eq_refl) as [_ ->].
    apply FixedWindowBounds.fw_interval_single; [done|done|].
    by apply clock_ok_times_of.
  - etrans; [apply sublist_admitted_between, served_slidingLog|].
    rewrite admitted_between_per_client by apply run_length.
    destruct (run_per_client slidingLog (SlidingWindowLogFacts.swl_frame _ _)
                (SlidingWindowLogFacts.swl_local _ _) (seen_slidingLog reqs) ∅ ∅ ip
                eq_refl) as [_ ->].
    apply SlidingWindowLogFacts.swl_bound_single; [done|].
    by apply clock_ok_times_of.
  - etrans; [apply sublist_admitted_between, served_tokenBucket|].
    rewrite admitted_between_per_client by apply run_length.
    destruct (run_per_client tokenBucket (TokenBucketFacts.tb_frame _ _)
                (TokenBucketFacts.tb_local _ _) (seen_tokenBucket reqs) ∅ ∅ ip
                eq_refl) as [_ ->].
    apply TokenBucketRate.tb_interval_single; [done|done|done|].
    by apply clock_ok_times_of.
  - rewrite served_leakyBucket.
    etrans; [by apply sublist_admitted_between|].
    rewrite admitted_between_per_client by apply run_length.
    destruct (run_per_client leakyBucket (LeakyBucketFacts.lb_frame _ _)
                (LeakyBucketFacts.lb_local _ _) (seen_leakyBucket reqs) ∅ ∅ ip
                eq_refl) as [_ ->].
    apply LeakyBucketRate.lb_interval_single; [done|done|done|].
    by apply clock_ok_times_of.
Qed.

Lemma server_serves_within_limits_witness :
  let reqs := (λ _ : nat, ("10.0.0.7", (0, (0, (0, (0, 0)))))) <$> seq 0 25 in
  let passed := handed_on reqs (exec app fresh reqs).2 in
  let count (lo hi : Z) (l : list Request) :=
    Z.of_nat (length (filter (λ q : Request, q.1 = "10.0.0.7" ∧ lo ≤ q.2 ≤ hi) l)) in
  length passed = 10%nat ∧
  count 0 (0 + FixedWindow.windowTime) (first_reading passed)
    ≤ 2 * FixedWindow.maxRequests ∧
  count 0 (0 + SlidingWindowLog.windowMs) (first_reading (later_readings passed))
    ≤ SlidingWindowLog.maxRequests ∧
  count 0 0
    (first_reading (later_readings (later_readings (later_readings passed))))
    ≤ TokenBucket.bucketCapacity + (0 - 0) * TokenBucket.refillRate / 1000 + 1 ∧
  count 0 0
    (later_readings (later_readings (later_readings (later_readings passed))))
    ≤ LeakyBucket.queueCapacity + (0 - 0) / LeakyBucket.leakRate + 1.
Proof.
  split; [vm_compute; reflexivity|].
  apply (server_serves_within_limits
           ((λ _ : nat, ("10.0.0.7", (0, (0, (0, (0, 0)))))) <$> seq 0 25)
           "10.0.0.7" 0 0).
  - unfold clock_ok. vm_compute. repeat constructor; discriminate.
  - unfold clock_ok. vm_compute. repeat constructor; discriminate.
  - unfold clock_ok. vm_compute. repeat constructor; discriminate.
  - unfold clock_ok. vm_compute. repeat constructor; discriminate.
  - lia.
Defined.

End ServerFacts.

(** ** Throttle: runs of the event loop *)

Module ThrottleRuns.
Import Throttle.

Section Facts.
Variables (MAX_REQUESTS TIME_WINDOW : Z).

Local Abbreviation middleware := (throttleMiddleware MAX_REQUESTS TIME_WINDOW).
Local Abbreviation callback := (timerCallback TIME_WINDOW).
Local Abbreviation loop := (serve MAX_REQUESTS TIME_WINDOW).

(** One call of the middleware, on the stored readings of the address
    (none when it has no entry). *)
Lemma throttle_call IPMap ip currentTime :
  middleware IPMap ip currentTime =
  let timestamps := recent TIME_WINDOW currentTime (default [] (IPMap !! ip)) in
  if bool_decide (Z.of_nat (length timestamps) < MAX_REQUESTS)
  then (<[ip := timestamps ++ [currentTime]]> IPMap, Next)
  else (<[ip := timestamps]> IPMap,
        Timer (TIME_WINDOW - (currentTime - default currentTime (head timestamps)))).
Proof.
  unfold throttleMiddleware. cbv zeta.
  destruct (IPMap !! ip) as [stored|] eqn:E.
  - rewrite E. cbn [from_option id].
    case_bool_decide; by rewrite ?insert_insert_eq.
  - rewrite lookup_insert_eq. cbn [from_option id].
    case_bool_decide; by rewrite !insert_insert_eq.
Qed.

Lemma serve_arrival IPMap ip currentTime rest :
  loop IPMap (Arrival ip currentTime :: rest) =
  match loop (middleware IPMap ip currentTime).1 rest with
  | Some (IPMap2, rs) => Some (IPMap2, (middleware IPMap ip currentTime).2 :: rs)
  | None => None
  end.
Proof. cbn [serve]. by destruct (middleware IPMap ip currentTime). Qed.

Lemma serve_timer IPMap ip now stored rest :
  IPMap !! ip = Some stored →
  loop IPMap (TimerFired ip now :: rest) =
  match loop (<[ip := recent TIME_WINDOW now stored ++ [now]]> IPMap) rest with
  | Some (IPMap2, rs) => Some (IPMap2, Next :: rs)
  | None => None
  end.
Proof. intros Hs. cbn [serve]. unfold timerCallback. by rewrite Hs. Qed.

Lemma serve_timer_Some IPMap ip now rest IPMap' rs :
  loop IPMap (TimerFired ip now :: rest) = Some (IPMap', rs) →
  ∃ stored, IPMap !! ip = Some stored.
Proof.
  cbn [serve]. unfold timerCallback.
  destruct (IPMap !! ip) as [stored|]; [by eexists|done].
Qed.

Lemma serve_app events1 : ∀ IPMap events2,
  loop IPMap (events1 ++ events2) =
  match loop IPMap events1 with
  | Some (IPMap1, rs1) =>
      match loop IPMap1 events2 with
      | Some (IPMap2, rs2) => Some (IPMap2, rs1 ++ rs2)
      | None => None
      end
  | None => None
  end.
Proof.
  induction events1 as [|[ip t|ip t] rest IH]; intros IPMap events2.
  - cbn [app serve]. by destruct (loop IPMap events2) as [[? ?]|].
  - rewrite <- app_comm_cons, !serve_arrival, IH.
    destruct (loop _ rest) as [[IPMap1 rs1]|]; [|done].
    by destruct (loop IPMap1 events2) as [[? ?]|].
  - rewrite <- app_comm_cons. cbn [serve].
    destruct (callback IPMap ip t) as [[IPMap0 r]|]; [|done].
    rewrite IH.
    destruct (loop _ rest) as [[IPMap1 rs1]|]; [|done].
    by destruct (loop IPMap1 events2) as [[? ?]|].
Qed.

Lemma serve_length events : ∀ IPMap IPMap' rs,
  loop IPMap events = Some (IPMap', rs) → length rs = length events.
Proof.
  induction events as [|[ip t|ip t] rest IH]; intros IPMap IPMap' rs.
  - by intros [= <- <-].
  - rewrite serve_arrival.
    destruct (loop _ rest) as [[IPMap1 rs1]|] eqn:E; [|done].
    intros [= <- <-]. cbn [length]. f_equal. by eapply IH.
  - cbn [serve]. destruct (callback IPMap ip t) as [[IPMap0 r]|]; [|done].
    destruct (loop _ rest) as [[IPMap1 rs1]|] eqn:E; [|done].
    intros [= <- <-]. cbn [length]. f_equal. by eapply IH.
Qed.

(** *** The delay of a timer *)

Lemma recent_behind lo now stored :
  lo ≤ now → Forall (λ ts, ts ≤ lo) stored →
  Forall (λ ts, ts ≤ now) (recent TIME_WINDOW now stored).
Proof.
  intros Hle Hall. unfold recent. apply Forall_forall. intros ts Hin.
  apply list_elem_of_filter in Hin as [_ Hin].
  rewrite Forall_forall in Hall. specialize (Hall ts Hin). simpl in Hall. lia.
Qed.

Lemma behind_insert lo now IPMap ip stored :
  lo ≤ now → behind lo IPMap → Forall (λ ts, ts ≤ now) stored →
  behind now (<[ip := stored]> IPMap).
Proof.
  intros Hle Hb Hall ip' stored'. destruct (decide (ip' = ip)) as [->|Hne].
  - rewrite lookup_insert_eq. by intros [= <-].
  - rewrite lookup_insert_ne by done. intros Hs.
    eapply Forall_impl; [by eapply Hb|]. simpl. intros; lia.
Qed.

Lemma behind_default lo IPMap ip :
  behind lo IPMap → Forall (λ ts, ts ≤ lo) (default [] (IPMap !! ip)).
Proof.
  intros Hb. destruct (IPMap !! ip) as [stored|] eqn:E; [|by constructor].
  by eapply Hb.
Qed.

Lemma sorted_cons_inv lo t ts :
  StronglySorted Z.le (lo :: t :: ts) → lo ≤ t ∧ StronglySorted Z.le (t :: ts).
Proof.
  intros Hs. apply StronglySorted_inv in Hs as [Hs Hall].
  split; [|done]. by apply Forall_inv in Hall.
Qed.

Lemma serve_delays events : ∀ IPMap lo IPMap' rs,
  1 ≤ MAX_REQUESTS →
  behind lo IPMap →
  StronglySorted Z.le (lo :: (event_time <$> events)) →
  loop IPMap events = Some (IPMap', rs) →
  Forall (λ r, ∀ delay, r = Timer delay → 1 ≤ delay ≤ TIME_WINDOW) rs.
Proof.
  induction events as [|[ip t|ip t] rest IH]; intros IPMap lo IPMap' rs Hmax Hb Hs.
  - intros [= <- <-]. constructor.
  - rewrite fmap_cons in Hs. cbn [event_time] in Hs.
    apply sorted_cons_inv in Hs as [Hle Hs].
    rewrite serve_arrival.
    destruct (loop _ rest) as [[IPMap1 rs1]|] eqn:E; [|done].
    intros [= <- <-].
    pose proof (recent_behind lo t _ Hle (behind_default lo IPMap ip Hb)) as Hrec.
    rewrite throttle_call in E |- *. cbv zeta in E |- *.
    set (timestamps := recent TIME_WINDOW t (default [] (IPMap !! ip))) in *.
    case_bool_decide as Hlen; cbn [fst snd] in E |- *.
    + constructor; [done|].
      eapply (IH _ t); [done| |done|exact E].
      apply (behind_insert lo); [done|done|].
      apply Forall_app. split; [done|]. constructor; [simpl; lia|constructor].
    + constructor.
      * intros delay [= <-].
        destruct timestamps as [|oldest more] eqn:Ets; [simpl in Hlen; lia|].
        cbn [head from_option id].
        assert (oldest ∈ recent TIME_WINDOW t (default [] (IPMap !! ip))) as Hin
          by (fold timestamps; rewrite Ets; left).
        apply list_elem_of_filter in Hin as [Hin _].
        apply Forall_inv in Hrec. simpl in Hrec. lia.
      * eapply (IH _ t); [done| |done|exact E].
        by apply (behind_insert lo).
  - rewrite fmap_cons in Hs. cbn [event_time] in Hs.
    apply sorted_cons_inv in Hs as [Hle Hs].
    intros Hrun. destruct (serve_timer_Some _ _ _ _ _ _ Hrun) as [stored Hst].
    rewrite (serve_timer _ _ _ _ _ Hst) in Hrun.
    destruct (loop _ rest) as [[IPMap1 rs1]|] eqn:E; [|done].
    injection Hrun as <- <-. constructor; [done|].
    eapply (IH _ t); [done| |done|exact E].
    apply (behind_insert lo); [done|done|].
    apply Forall_app. split; [|constructor; [simpl; lia|constructor]].
    apply (recent_behind lo); [done|]. by eapply Hb.
Qed.

(** X13.  In a run of the event loop from an empty map in which the
    clock never goes back and timers fire only for addresses that have
    sent a request, no callback throws and every timer the middleware
    arms has a delay of at least one millisecond and at most
    [TIME_WINDOW]. *)
Theorem throttle_delay_range (events : list Event) :
  1 ≤ MAX_REQUESTS →
  events_clock_ok events →
  timers_follow_arrivals ∅ events →
  ∃ IPMap rs,
    loop ∅ events = Some (IPMap, rs) ∧
    Forall (λ r, ∀ delay, r = Timer delay → 1 ≤ delay ≤ TIME_WINDOW) rs.
Proof.
  intros Hmax Hclock Hev.
  destruct (ThrottleFacts.serve_never_rejects MAX_REQUESTS TIME_WINDOW
              events ∅ ∅) as (IPMap & rs & Hrun & _); [set_solver|done|].
  exists IPMap, rs. split; [done|].
  destruct events as [|e rest].
  - injection Hrun as <- <-. constructor.
  - apply (serve_delays (e :: rest) ∅ (event_time e) IPMap rs); [done| |  |done].
    + intros ip stored. by rewrite lookup_empty.
    + unfold events_clock_ok in Hclock. rewrite fmap_cons in Hclock |- *.
      constructor; [done|].
      apply StronglySorted_inv in Hclock as [_ Hall].
      constructor; [lia|done].
Qed.

(** *** Requests handed on at once *)

Lemma held_since_recent a b now stored :
  now ≤ b → b - a < TIME_WINDOW →
  filter (λ ts, a ≤ ts) (recent TIME_WINDOW now stored) = filter (λ ts, a ≤ ts) stored.
Proof.
  intros Hnow Hspan. unfold recent.
  induction stored as [|ts stored IH]; [done|].
  rewrite !filter_cons.
  destruct (decide (a ≤ ts)) as [Ha|Ha].
  - rewrite decide_True by lia. rewrite filter_cons, decide_True by done.
    by rewrite IH.
  - case_decide; [rewrite filter_cons, decide_False by done|]; apply IH.
Qed.

Lemma passed_at_once_none ip a b events : ∀ rs,
  Forall (λ t, b < t) (event_time <$> events) →
  passed_at_once_between ip a b events rs = 0%nat.
Proof.
  unfold passed_at_once_between.
  induction events as [|e rest IH]; intros [|r rs] Hall; try done.
  rewrite fmap_cons in Hall. apply Forall_cons in Hall as [He Hall].
  cbn [zip zip_with]. rewrite filter_cons.
  rewrite decide_False; [by apply IH|].
  destruct e as [ip' t|ip' t], r; cbn [passed_at_once event_time] in *;
    try (intros []).
  rewrite bool_decide_eq_false_2; [intros []|]. lia.
Qed.

Lemma passed_at_once_cons ip a b e r events rs :
  passed_at_once_between ip a b (e :: events) (r :: rs) =
  ((if passed_at_once ip a b (e, r) then 1 else 0)
   + passed_at_once_between ip a b events rs)%nat.
Proof.
  unfold passed_at_once_between. cbn [zip zip_with]. rewrite filter_cons.
  destruct (passed_at_once ip a b (e, r)) eqn:E.
  - by rewrite decide_True by done.
  - by rewrite decide_False by (intros []).
Qed.

Lemma held_since_insert a ip IPMap stored :
  held_since a ip (<[ip := stored]> IPMap) = length (filter (λ ts, a ≤ ts) stored).
Proof. unfold held_since. by rewrite lookup_insert_eq. Qed.

Lemma held_since_other a ip ip' IPMap stored :
  ip' ≠ ip → held_since a ip (<[ip' := stored]> IPMap) = held_since a ip IPMap.
Proof. intros Hne. unfold held_since. by rewrite lookup_insert_ne. Qed.

Lemma serve_at_once ip a b events : ∀ IPMap IPMap' rs,
  b - a < TIME_WINDOW →
  StronglySorted Z.le (event_time <$> events) →
  loop IPMap events = Some (IPMap', rs) →
  Z.of_nat (passed_at_once_between ip a b events rs)
  ≤ Z.max 0 (MAX_REQUESTS - Z.of_nat (held_since a ip IPMap)).
Proof.
  intros IPMap IPMap' rs Hspan. revert IPMap IPMap' rs.
  induction events as [|e rest IH]; intros IPMap IPMap' rs Hs Hrun.
  { injection Hrun as <- <-. unfold passed_at_once_between. simpl. lia. }
  rewrite fmap_cons in Hs. apply StronglySorted_inv in Hs as [Hs Hall].
  destruct (decide (event_time e ≤ b)) as [Hin|Hout].
  2:{ rewrite passed_at_once_none; [lia|].
      rewrite fmap_cons. constructor; [lia|].
      eapply Forall_impl; [exact Hall|]. simpl. intros; lia. }
  destruct e as [ip' t|ip' t]; cbn [event_time] in *.
  - rewrite serve_arrival in Hrun.
    destruct (loop _ rest) as [[IPMap1 rs1]|] eqn:E; [|done].
    injection Hrun as <- <-. specialize (IH _ _ _ Hs E).
    rewrite passed_at_once_cons.
    rewrite throttle_call in IH |- *. cbv zeta in IH |- *.
    destruct (decide (ip' = ip)) as [->|Hne].
    + pose proof (held_since_recent a b t (default [] (IPMap !! ip)) Hin Hspan)
        as Hrec.
      pose proof (length_filter (λ ts, a ≤ ts)
                    (recent TIME_WINDOW t (default [] (IPMap !! ip)))) as Hlen.
      rewrite Hrec in Hlen. fold (held_since a ip IPMap) in Hlen.
      case_bool_decide as Hroom; cbn [fst snd passed_at_once] in IH |- *.
      * rewrite held_since_insert, filter_app, length_app, Hrec in IH.
        fold (held_since a ip IPMap) in IH.
        rewrite filter_cons, filter_nil in IH.
        case_bool_decide as Hcount; destruct (decide (a ≤ t)) as [Ha|Ha];
          cbn [length] in IH; lia.
      * rewrite held_since_insert, Hrec in IH.
        fold (held_since a ip IPMap) in IH. lia.
    + case_bool_decide as Hroom; cbn [fst snd passed_at_once] in IH |- *;
        rewrite held_since_other in IH by done.
      * rewrite bool_decide_eq_false_2 by (intros [? _]; done). lia.
      * lia.
  - destruct (serve_timer_Some _ _ _ _ _ _ Hrun) as [stored Hst].
    rewrite (serve_timer _ _ _ _ _ Hst) in Hrun.
    destruct (loop _ rest) as [[IPMap1 rs1]|] eqn:E; [|done].
    injection Hrun as <- <-. specialize (IH _ _ _ Hs E).
    rewrite passed_at_once_cons. cbn [passed_at_once].
    destruct (decide (ip' = ip)) as [->|Hne].
    + rewrite held_since_insert, filter_app, length_app in IH.
      rewrite (held_since_recent a b t stored Hin Hspan) in IH.
      unfold held_since. rewrite Hst. cbn [from_option id]. lia.
    + rewrite held_since_other in IH by done. lia.
Qed.

(** X14.  In a run of the event loop from an empty map in which the
    clock never goes back and timers fire only for addresses that have
    sent a request, the requests of one address that the middleware
    hands on at once, with readings in a span shorter than
    [TIME_WINDOW], number at most [MAX_REQUESTS]. *)
Theorem throttle_at_once_bound (events : list Event) (ip : string) (a b : Z) :
  0 ≤ MAX_REQUESTS →
  b - a < TIME_WINDOW →
  events_clock_ok events →
  timers_follow_arrivals ∅ events →
  ∃ IPMap rs,
    loop ∅ events = Some (IPMap, rs) ∧
    Z.of_nat (passed_at_once_between ip a b events rs) ≤ MAX_REQUESTS.
Proof.
  intros Hmax Hspan Hclock Hev.
  destruct (ThrottleFacts.serve_never_rejects MAX_REQUESTS TIME_WINDOW
              events ∅ ∅) as (IPMap & rs & Hrun & _); [set_solver|done|].
  exists IPMap, rs. split; [done|].
  pose proof (serve_at_once ip a b events ∅ IPMap rs Hspan Hclock Hrun) as H.
  unfold held_since in H. rewrite lookup_empty in H. simpl in H. lia.
Qed.

(** *** Delayed requests *)

Lemma recent_replicate_same n t :
  0 < TIME_WINDOW → recent TIME_WINDOW t (replicate n t) = replicate n t.
Proof.
  intros Hw. unfold recent. induction n as [|n IH]; [done|].
  cbn [replicate]. rewrite filter_cons, decide_True by lia. by rewrite IH.
Qed.

Lemma recent_replicate_old n t :
  recent TIME_WINDOW (t + TIME_WINDOW) (replicate n t) = [].
Proof.
  unfold recent. induction n as [|n IH]; [done|].
  cbn [replicate]. by rewrite filter_cons, decide_False by lia.
Qed.

Lemma recent_recent now stored :
  0 < TIME_WINDOW →
  recent TIME_WINDOW now (recent TIME_WINDOW now stored ++ [now])
  = recent TIME_WINDOW now stored ++ [now].
Proof.
  intros Hw. unfold recent. rewrite filter_app. f_equal.
  - induction stored as [|ts stored IH]; [done|].
    rewrite filter_cons. case_decide; [|done].
    rewrite filter_cons, decide_True by done. by rewrite IH.
  - rewrite filter_cons, decide_True by lia. done.
Qed.

Lemma serve_arrivals_pass ip t j : ∀ IPMap i,
  0 < TIME_WINDOW →
  default [] (IPMap !! ip) = replicate i t →
  Z.of_nat (i + S j) ≤ MAX_REQUESTS →
  loop IPMap (replicate (S j) (Arrival ip t))
  = Some (<[ip := replicate (i + S j) t]> IPMap, replicate (S j) Next).
Proof.
  induction j as [|j IH]; intros IPMap i Hw Hst Hroom.
  - cbn [replicate]. rewrite serve_arrival, throttle_call. cbv zeta.
    rewrite Hst, recent_replicate_same by done.
    rewrite length_replicate, bool_decide_eq_true_2 by lia.
    cbn [fst snd serve]. by rewrite replicate_add.
  - change (replicate (S (S j)) (Arrival ip t))
      with (Arrival ip t :: replicate (S j) (Arrival ip t)).
    rewrite serve_arrival, throttle_call. cbv zeta.
    rewrite Hst, recent_replicate_same by done.
    rewrite length_replicate, bool_decide_eq_true_2 by lia.
    cbn [fst snd].
    rewrite (IH _ (S i)); [| done | | lia].
    + rewrite insert_insert_eq.
      by replace (i + S (S j))%nat with (S i + S j)%nat by lia.
    + rewrite lookup_insert_eq. cbn [from_option id].
      replace (S i) with (i + 1)%nat by lia. by rewrite replicate_add.
Qed.

Lemma serve_arrivals_wait ip t m k : ∀ IPMap,
  0 < TIME_WINDOW →
  MAX_REQUESTS = Z.of_nat (S m) →
  IPMap !! ip = Some (replicate (S m) t) →
  loop IPMap (replicate k (Arrival ip t))
  = Some (IPMap, replicate k (Timer TIME_WINDOW)).
Proof.
  intros IPMap Hw Hmax Hst. induction k as [|k IH]; [done|].
  cbn [replicate]. rewrite serve_arrival, throttle_call. cbv zeta.
  rewrite Hst. cbn [from_option id]. rewrite recent_replicate_same by done.
  rewrite length_replicate, bool_decide_eq_false_2 by lia.
  cbn [fst snd replicate head from_option id].
  rewrite insert_id by done. rewrite IH.
  by rewrite Z.sub_diag, Z.sub_0_r.
Qed.

Lemma serve_timers ip now k : ∀ IPMap stored,
  0 < TIME_WINDOW →
  IPMap !! ip = Some stored →
  loop IPMap (replicate (S k) (TimerFired ip now))
  = Some (<[ip := recent TIME_WINDOW now stored ++ replicate (S k) now]> IPMap,
          replicate (S k) Next).
Proof.
  induction k as [|k IH]; intros IPMap stored Hw Hst.
  - cbn [replicate]. by rewrite (serve_timer _ _ _ _ _ Hst).
  - change (replicate (S (S k)) (TimerFired ip now))
      with (TimerFired ip now :: replicate (S k) (TimerFired ip now)).
    rewrite (serve_timer _ _ _ _ _ Hst).
    rewrite (IH _ (recent TIME_WINDOW now stored ++ [now]));
      [|done|by rewrite lookup_insert_eq].
    rewrite insert_insert_eq, recent_recent by done.
    by rewrite <- app_assoc.
Qed.

(** X15.  The limit is not applied to delayed requests.  When one
    address sends [MAX_REQUESTS + k] requests at one reading [t], with
    [k] at least one, the first [MAX_REQUESTS] are handed on at once and
    each of the other [k] arms a timer of [TIME_WINDOW]; when these
    timers fire, all at the reading [t + TIME_WINDOW], all [k] requests
    are handed on at that reading and the stored array of the address
    then holds [k] readings, however large [k] is. *)
Theorem throttle_delayed_burst (ip : string) (t : Z) (m k : nat) :
  MAX_REQUESTS = Z.of_nat (S m) →
  0 < TIME_WINDOW →
  loop ∅ (replicate (S m) (Arrival ip t) ++ replicate (S k) (Arrival ip t)
          ++ replicate (S k) (TimerFired ip (t + TIME_WINDOW)))
  = Some ({[ip := replicate (S k) (t + TIME_WINDOW)]},
          replicate (S m) Next ++ replicate (S k) (Timer TIME_WINDOW)
          ++ replicate (S k) Next).
Proof.
  intros Hmax Hw.
  rewrite serve_app, (serve_arrivals_pass ip t m ∅ 0); [|done|done|lia].
  rewrite serve_app, (serve_arrivals_wait ip t m (S k));
    [|done|done|by rewrite lookup_insert_eq].
  rewrite (serve_timers ip (t + TIME_WINDOW) k _ (replicate (S m) t));
    [|done|by rewrite lookup_insert_eq].
  rewrite recent_replicate_old, insert_insert_eq. cbn [app].
  by rewrite insert_empty.
Qed.

End Facts.

Lemma throttle_delay_range_witness :
  ∃ IPMap rs,
    serve MAX_REQUESTS TIME_WINDOW ∅
      (((λ t, Arrival "10.0.0.7" t) <$> [0; 100; 200; 300; 400; 500; 1200])
       ++ [TimerFired "10.0.0.7" 1300]) = Some (IPMap, rs) ∧
    Forall (λ r, ∀ delay, r = Timer delay → 1 ≤ delay ≤ TIME_WINDOW) rs.
Proof.
  apply (throttle_delay_range MAX_REQUESTS TIME_WINDOW).
  - vm_compute. discriminate.
  - unfold events_clock_ok. simpl. repeat constructor; lia.
  - simpl. split; [|done]. apply elem_of_union_l, elem_of_singleton. reflexivity.
Defined.

Lemma throttle_at_once_bound_witness :
  ∃ IPMap rs,
    serve MAX_REQUESTS TIME_WINDOW ∅
      (((λ t, Arrival "10.0.0.7" t) <$> [0; 100; 200; 300; 400; 500; 999])
       ++ [TimerFired "10.0.0.7" 1000; Arrival "10.0.0.7" 1000])
    = Some (IPMap, rs) ∧
    Z.of_nat (passed_at_once_between "10.0.0.7" 1 1000
                (((λ t, Arrival "10.0.0.7" t) <$> [0; 100; 200; 300; 400; 500; 999])
                 ++ [TimerFired "10.0.0.7" 1000; Arrival "10.0.0.7" 1000]) rs)
    ≤ MAX_REQUESTS.
Proof.
  apply (throttle_at_once_bound MAX_REQUESTS TIME_WINDOW).
  - vm_compute. discriminate.
  - vm_compute. reflexivity.
  - unfold events_clock_ok. simpl. repeat constructor; lia.
  - simpl. split; [|done]. apply elem_of_union_l, elem_of_singleton. reflexivity.
Defined.

Lemma throttle_delayed_burst_witness :
  serve MAX_REQUESTS TIME_WINDOW ∅
    (replicate 5 (Arrival "10.0.0.7" 0) ++ replicate 100 (Arrival "10.0.0.7" 0)
     ++ replicate 100 (TimerFired "10.0.0.7" (0 + TIME_WINDOW)))
  = Some ({[ "10.0.0.7" := replicate 100 (0 + TIME_WINDOW) ]},
          replicate 5 Next ++ replicate 100 (Timer TIME_WINDOW)
          ++ replicate 100 Next).
Proof.
  apply (throttle_delayed_burst MAX_REQUESTS TIME_WINDOW "10.0.0.7" 0 4 99).
  - reflexivity.
  - reflexivity.
Defined.

End ThrottleRuns.

(** ** Retrying after a 429 *)

Module RetryAfter.

Section FixedWindowRetry.
Import FixedWindow FixedWindowFacts.
Variables (windowTime maxRequests : Z).

Local Abbreviation limiter := (fixedWindowRateLimiter windowTime maxRequests).

(** X16.  The [retryAfter] of the fixed window is exact in whole seconds.
    After a 429 with [retryAfter], whatever other addresses do in
    between, the next request of the address taken [k] seconds after the
    rejected one is handed on when [k] is at least [retryAfter] and
    answered 429 again when it is less. *)
Theorem fixed_window_retry_after
    (store store2 : gmap string Entry) (ip : string) (now retryAfter k : Z) :
  (limiter store ip now).2 = Status429 retryAfter →
  store2 !! ip = (limiter store ip now).1 !! ip →
  (limiter store2 ip (now + 1000 * k)).2 = Next ↔ retryAfter ≤ k.
Proof.
  unfold fixedWindowRateLimiter at 1 2.
  destruct (store !! ip) as [entry|] eqn:E; [|done].
  case_bool_decide as Hin; [|done].
  case_bool_decide as Hfull; [done|]. cbn [fst snd].
  intros [= <-] Hs2. rewrite E in Hs2.
  pose proof (Math_ceil_1000_bounds (windowTime - (now - windowStart entry)))
    as Hceil.
  unfold fixedWindowRateLimiter. rewrite Hs2.
  case_bool_decide as Hin2.
  - rewrite bool_decide_eq_false_2 by done. cbn [snd]. split; [done|]. lia.
  - cbn [snd]. split; [|done]. lia.
Qed.

End FixedWindowRetry.

Section TokenBucketRetry.
Import TokenBucket TokenBucketFacts.
Variables (bucketCapacity refillRate : Z).
Hypothesis capacity_pos : 1 ≤ bucketCapacity.
Hypothesis rate_pos : 1 ≤ refillRate.

Local Abbreviation limiter := (tokenBucketRateLimiter bucketCapacity refillRate).

Lemma tb_retry_step store store2 ip T now now' bucket retryAfter :
  store !! ip = Some bucket →
  settled bucketCapacity refillRate T bucket →
  T ≤ now →
  (limiter store ip now).2 = Status429 retryAfter →
  store2 !! ip = (limiter store ip now).1 !! ip →
  now + 1000 * retryAfter ≤ now' →
  (limiter store2 ip now').2 = Next.
Proof.
  intros Hs (Htok & Hlr & Hcarry) Hle.
  rewrite (tb_call _ _ _ _ _ _ Hs). cbn [fst snd].
  assert (0 ≤ (now - lastRefill bucket) * refillRate / 1000) as Hadd
    by (apply Z.div_pos; nia).
  case_bool_decide as Hpos; [done|]. intros [= <-].
  rewrite lookup_insert_eq. intros Hs2 Hwait.
  rewrite (tb_call _ _ _ _ _ _ Hs2). cbn [fst snd tokens lastRefill].
  rewrite (bool_decide_eq_false_2
             (0 < (now - lastRefill bucket) * refillRate / 1000)) by lia.
  rewrite bool_decide_eq_true_2; [done|].
  assert (1 ≤ (now' - lastRefill bucket) * refillRate / 1000)
    by (apply Z.div_le_lower_bound; nia).
  lia.
Qed.

(** X17.  The [retryAfter] of one second that the token bucket sends is
    enough.  In a run from an empty map whose clock never goes back,
    with a capacity and a refill rate of at least one, when a request is
    answered 429 the next request of that address, whatever other
    addresses do in between, is handed on if it comes [retryAfter]
    seconds later or more. *)
Theorem token_bucket_retry_admitted
    (reqs : list Request) (store2 : gmap string Bucket) (ip : string)
    (now now' retryAfter : Z) :
  clock_ok (reqs ++ [(ip, now)]) →
  (limiter (run limiter ∅ reqs).1 ip now).2 = Status429 retryAfter →
  store2 !! ip = (limiter (run limiter ∅ reqs).1 ip now).1 !! ip →
  now + 1000 * retryAfter ≤ now' →
  (limiter store2 ip now').2 = Next.
Proof.
  intros Hclock Hrej Hs2 Hwait.
  destruct ((run limiter ∅ reqs).1 !! ip) as [bucket|] eqn:E.
  - assert (clock_ok reqs) as Hclock0.
    { unfold clock_ok in *. rewrite fmap_app in Hclock.
      by apply StronglySorted_app_1_l in Hclock. }
    destruct (tb_reachable bucketCapacity refillRate capacity_pos
                ltac:(lia) reqs ip bucket Hclock0 E) as (T0 & Hlast & Hset).
    eapply (tb_retry_step _ store2 ip T0 now now'); eauto.
    by eapply clock_ok_snoc.
  - by rewrite tb_new in Hrej.
Qed.

End TokenBucketRetry.

Section LeakyBucketRetry.
Import LeakyBucket LeakyBucketFacts.
Variables (queueCapacity leakRate : Z).
Hypothesis capacity_pos : 1 ≤ queueCapacity.
Hypothesis rate_pos : 0 < leakRate.

Local Abbreviation limiter := (leakyBucketRateLimiter queueCapacity leakRate).

Lemma lb_retry_step store store2 ip T now now' bucket retryAfter :
  store !! ip = Some bucket →
  settled queueCapacity leakRate T bucket →
  T ≤ now →
  (limiter store ip now).2 = Status429 retryAfter →
  store2 !! ip = (limiter store ip now).1 !! ip →
  now + 1000 * retryAfter ≤ now' →
  (limiter store2 ip now').2 = Next.
Proof.
  intros Hs (Hq & Hcarry) Hle.
  rewrite (lb_call _ _ _ _ _ _ Hs), leak_floor. cbn [queue lastLeakTime].
  assert (0 ≤ (now - lastLeakTime bucket) / leakRate) as Hpos
    by (apply Z.div_pos; lia).
  pose proof (Math_ceil_1000_bounds leakRate) as Hceil.
  case_bool_decide as Hroom; [done|]. cbn [fst snd]. intros [= <-].
  rewrite lookup_insert_eq. intros Hs2 Hwait.
  rewrite (lb_call _ _ _ _ _ _ Hs2), leak_floor. cbn [queue lastLeakTime].
  rewrite (bool_decide_eq_false_2 (0 < (now - lastLeakTime bucket) / leakRate))
    by lia.
  rewrite bool_decide_eq_true_2; [done|].
  assert (1 ≤ (now' - lastLeakTime bucket) / leakRate)
    by (apply Z.div_le_lower_bound; lia).
  lia.
Qed.

(** X18.  The [retryAfter] the leaky bucket sends, [leakRate] in whole
    seconds rounded up, is enough.  In a run from an empty map whose
    clock never goes back, with a capacity of at least one and a
    positive leak interval, when a request is answered 429 the next
    request of that address, whatever other addresses do in between, is
    handed on if it comes [retryAfter] seconds later or more. *)
Theorem leaky_bucket_retry_admitted
    (reqs : list Request) (store2 : gmap string Bucket) (ip : string)
    (now now' retryAfter : Z) :
  clock_ok (reqs ++ [(ip, now)]) →
  (limiter (run limiter ∅ reqs).1 ip now).2 = Status429 retryAfter →
  store2 !! ip = (limiter (run limiter ∅ reqs).1 ip now).1 !! ip →
  now + 1000 * retryAfter ≤ now' →
  (limiter store2 ip now').2 = Next.
Proof.
  intros Hclock Hrej Hs2 Hwait.
  destruct ((run limiter ∅ reqs).1 !! ip) as [bucket|] eqn:E.
  - assert (clock_ok reqs) as Hclock0.
    { unfold clock_ok in *. rewrite fmap_app in Hclock.
      by apply StronglySorted_app_1_l in Hclock. }
    destruct (lb_reachable queueCapacity leakRate capacity_pos rate_pos
                reqs ip bucket Hclock0 E) as (T0 & Hlast & Hset).
    eapply (lb_retry_step _ store2 ip T0 now now'); eauto.
    by eapply clock_ok_snoc.
  - by rewrite lb_new in Hrej.
Qed.

End LeakyBucketRetry.

Lemma fixed_window_retry_after_witness :
  let limiter :=
    FixedWindow.fixedWindowRateLimiter FixedWindow.windowTime FixedWindow.maxRequests in
  let store := (run limiter ∅ (from "10.0.0.7" (replicate 100 0))).1 in
  (limiter store "10.0.0.7" 500).2 = Status429 900 ∧
  ((limiter (limiter store "10.0.0.7" 500).1 "10.0.0.7" (500 + 1000 * 899)).2 = Next
   ↔ 900 ≤ 899) ∧
  ((limiter (limiter store "10.0.0.7" 500).1 "10.0.0.7" (500 + 1000 * 900)).2 = Next
   ↔ 900 ≤ 900).
Proof.
  cbv zeta.
  split; [vm_compute; reflexivity|].
  split.
  - apply (fixed_window_retry_after FixedWindow.windowTime FixedWindow.maxRequests
             (run (FixedWindow.fixedWindowRateLimiter FixedWindow.windowTime
                     FixedWindow.maxRequests) ∅
                (from "10.0.0.7" (replicate 100 0))).1).
    + vm_compute. reflexivity.
    + reflexivity.
  - apply (fixed_window_retry_after FixedWindow.windowTime FixedWindow.maxRequests
             (run (FixedWindow.fixedWindowRateLimiter FixedWindow.windowTime
                     FixedWindow.maxRequests) ∅
                (from "10.0.0.7" (replicate 100 0))).1).
    + vm_compute. reflexivity.
    + reflexivity.
Defined.

Lemma token_bucket_retry_admitted_witness :
  let limiter :=
    TokenBucket.tokenBucketRateLimiter TokenBucket.bucketCapacity
      TokenBucket.refillRate in
  let store := (run limiter ∅ (from "10.0.0.7" (replicate 10 0))).1 in
  (limiter store "10.0.0.7" 999).2 = Status429 1 ∧
  (limiter (limiter store "10.0.0.7" 999).1 "10.0.0.7" 1999).2 = Next.
Proof.
  cbv zeta.
  split; [vm_compute; reflexivity|].
  apply (token_bucket_retry_admitted TokenBucket.bucketCapacity
           TokenBucket.refillRate ltac:(vm_compute; discriminate)
           ltac:(vm_compute; discriminate)
           (from "10.0.0.7" (replicate 10 0)) _ "10.0.0.7" 999 1999 1).
  - unfold clock_ok. simpl. repeat constructor; lia.
  - vm_compute. reflexivity.
  - reflexivity.
  - lia.
Defined.

Lemma leaky_bucket_retry_admitted_witness :
  let limiter :=
    LeakyBucket.leakyBucketRateLimiter LeakyBucket.queueCapacity
      LeakyBucket.leakRate in
  let store := (run limiter ∅ (from "10.0.0.7" (replicate 10 0))).1 in
  (limiter store "10.0.0.7" 999).2 = Status429 1 ∧
  (limiter (limiter store "10.0.0.7" 999).1 "10.0.0.7" 1999).2 = Next.
Proof.
  cbv zeta.
  split; [vm_compute; reflexivity|].
  apply (leaky_bucket_retry_admitted LeakyBucket.queueCapacity
           LeakyBucket.leakRate ltac:(vm_compute; discriminate)
           ltac:(reflexivity)
           (from "10.0.0.7" (replicate 10 0)) _ "10.0.0.7" 999 1999 1).
  - unfold clock_ok. simpl. repeat constructor; lia.
  - vm_compute. reflexivity.
  - reflexivity.
  - lia.
Defined.

End RetryAfter.
